(** * cxx_function.hpp: the type-erasure and dispatch engine

    A shallow embedding of [cxx_function::impl] (erasures, dispatch tables,
    [wrapper_base]) as state-passing functions over a world made of the
    wrappers' inline storage and the allocator heap.  Exceptions,
    [std::terminate] and undefined behaviour are outcomes of a small monad. *)

From stdpp Require Import gmap strings list fin_maps.

Set Default Proof Using "Type".

Module cxx_function.

(** ** Exceptions, type identity, qualifiers *)

Inductive exception :=
| bad_function_call
| bad_alloc
| user_exception (code : N).

(** [std::type_info]: [typeid (void)] or the identity of an object type. *)
Inductive type_info :=
| typeid_void
| typeid_name (name : string).

#[global] Instance exception_eq_dec : EqDecision exception.
Proof. solve_decision. Defined.

#[global] Instance type_info_eq_dec : EqDecision type_info.
Proof. solve_decision. Defined.

Inductive ref_qualifier := ref_none | ref_lvalue | ref_rvalue.

(** The [QUALS] of a call signature [ret( args ... ) QUALS], and also the
    cv-qualification and value category of an object expression. *)
Record qualifiers := QUALS {
  q_const : bool;
  q_volatile : bool;
  q_ref : ref_qualifier
}.

#[global] Instance ref_qualifier_eq_dec : EqDecision ref_qualifier.
Proof. solve_decision. Defined.

#[global] Instance qualifiers_eq_dec : EqDecision qualifiers.
Proof. solve_decision. Defined.

(** A declared signature [ret( args ... ) QUALS]: [sig_ret] names the return
    type, [sig_params] the parameter types. *)
Record signature := SIG {
  sig_ret : string;
  sig_params : list string;
  sig_quals : qualifiers
}.

#[global] Instance signature_eq_dec : EqDecision signature.
Proof. solve_decision. Defined.

Inductive value_category := lvalue | rvalue.

(** ** Outcomes of a computation over a state [S] *)

Inductive outcome (S A : Type) :=
| Returns (a : A) (s : S)
| Throws (e : exception) (s : S)
| Terminate
| Undefined.

Arguments Returns {S A} a s.
Arguments Throws {S A} e s.
Arguments Terminate {S A}.
Arguments Undefined {S A}.

Section monad.
Context {S : Type}.

Definition M (A : Type) : Type := S -> outcome S A.

Definition ret {A} (a : A) : M A := fun s => Returns a s.

Definition bind {A B} (m : M A) (k : A -> M B) : M B :=
  fun s =>
    match m s with
    | Returns a s' => k a s'
    | Throws e s' => Throws e s'
    | Terminate => Terminate
    | Undefined => Undefined
    end.

Definition throw {A} (e : exception) : M A := fun s => Throws e s.

Definition undefined {A} : M A := fun _ => Undefined.

Definition gets {A} (f : S -> A) : M A := fun s => Returns (f s) s.

Definition modify (f : S -> S) : M unit := fun s => Returns tt (f s).

(** [try { m } catch (...) { handler }] *)
Definition try_catch {A} (m : M A) (handler : exception -> M A) : M A :=
  fun s =>
    match m s with
    | Throws e s' => handler e s'
    | o => o
    end.

(** A function declared [noexcept( b )]: an exception that leaves it calls
    [std::terminate]. *)
Definition noexcept_if {A} (b : bool) (m : M A) : M A :=
  fun s =>
    match m s with
    | Throws e s' => if b then Terminate else Throws e s'
    | o => o
    end.

Definition noexcept {A} (m : M A) : M A := noexcept_if true m.

End monad.

Arguments M S A : clear implicits.

Declare Scope cxx_scope.
Delimit Scope cxx_scope with cxx.
Notation "x <- c ;; k" := (bind c (fun x => k))
  (at level 100, c at next level, right associativity) : cxx_scope.
Notation "c ;;; k" := (bind c (fun _ => k))
  (at level 100, right associativity) : cxx_scope.
Open Scope cxx_scope.

(** ** Allocators and pointers *)

(** An allocator: the arena it draws from and how many blocks the arena can
    hold ([None]: unbounded, as [std::allocator]); [alloc_size] is the
    allocator's own size as a base subobject (0 for a stateless one). *)
Record allocator := {
  arena : N;
  capacity : option nat;
  alloc_size : N
}.

Definition std_allocator : allocator :=
  {| arena := 0; capacity := None; alloc_size := 0 |}.

(** A pointer is null, the address of the [target] member inside the storage
    of wrapper [w], or the address of a heap block. *)
Inductive pointer :=
| nullptr
| in_storage (w : N)
| on_heap (l : positive).

#[global] Instance pointer_eq_dec : EqDecision pointer.
Proof. solve_decision. Defined.

(** Calls made through [std::allocator_traits]. *)
Inductive event :=
| ev_allocate (a : allocator) (n : nat) (l : positive)
| ev_construct (a : allocator) (l : positive)
| ev_destroy (a : allocator) (l : positive)
| ev_deallocate (a : allocator) (l : positive) (n : nat).

(** What an instantiation [wrapper_base< sig ... >] fixes: the declared
    signature set, and with the platform [sizeof (void * )] and
    [alignof (decltype (storage))]. *)
Class instantiation := {
  sigs : list signature;
  sizeof_pointer : N;
  alignof_storage : N
}.

Section impl.

(** The universe of payload values, of argument lists and of results. *)
Context {value args result : Type}.
Context {inst : instantiation}.

(** ** Payload types *)

(** A copy or move constructor of a payload type.  A constructor that
    returns yields an object equal to its argument (CopyConstructible,
    MoveConstructible); [ctor_throwing f] throws [e] on [v] when
    [f v = Some e].  Every payload type has both: the table of an erasure
    names [& NAME::move] and [& NAME::copy] (lines 131-132), so a type that
    cannot be moved or cannot be copied is not erased at all. *)
Inductive constructor :=
| ctor_noexcept
| ctor_throwing (f : value -> option exception).

Inductive type_category :=
| class_type            (* functor, closure *)
| pointer_type          (* t * *)
| member_pointer_type.  (* t c::* *)

(** What the templates ask of a payload type [T]: [typeid (T)], [sizeof],
    [alignof], its constructors, [if ( p )] for pointers, and the call
    expression [target( a ... )]: [call s v a] calls the target [v] for
    [ret( args ... )] of [s], [sig_quals s] being the cv-qualification and
    value category of the object expression called (for a pointer to member
    the expression is [std::mem_fn( target )]).  A call yields the new state
    of the target and a result or an exception. *)
Record payload_type := {
  type_name : string;
  category : type_category;
  size_of : N;
  align_of : N;
  copy_ctor : constructor;
  move_ctor : constructor;
  is_nonnull : value -> bool;
  call : signature -> value -> args -> value * (result + exception)
}.

Definition typeid (T : payload_type) : type_info := typeid_name (type_name T).

Definition is_nothrow_move_constructible (T : payload_type) : bool :=
  match move_ctor T with ctor_noexcept => true | _ => false end.

(** ** Erasures and the world *)

(** The island inside the wrapper: one of the four erasure classes. *)
Inductive erasure :=
| null_erasure
| local_erasure (T : payload_type) (target : value)
| ptm_erasure (T : payload_type) (target : value)
| allocator_erasure (alloc : allocator) (T : payload_type) (target : pointer).

(** [storage]: the live erasure in each wrapper's inline storage (no entry:
    no live erasure there).  [heap]: the blocks obtained from allocators, a
    block holding an object ([Some v]) or raw ([None]).  [events]: the
    allocator calls so far, latest first. *)
Record world := {
  storage : gmap N erasure;
  heap : gmap positive (option value);
  events : list event
}.

Definition set_storage (f : gmap N erasure -> gmap N erasure) (w : world) : world :=
  {| storage := f (storage w); heap := heap w; events := events w |}.

Definition set_heap (f : gmap positive (option value) -> gmap positive (option value))
    (ev : event) (w : world) : world :=
  {| storage := storage w; heap := f (heap w); events := ev :: events w |}.

Definition write_heap (l : positive) (v : value) (w : world) : world :=
  {| storage := storage w; heap := <[l := Some v]> (heap w); events := events w |}.

Abbreviation comp := (M world).

(** [reinterpret_cast< erasure_xface & >( storage )]: the erasure living in
    the storage of wrapper [this]; none living there is undefined. *)
Definition erasure_cast (this : N) : comp erasure :=
  fun w =>
    match storage w !! this with
    | Some e => Returns e w
    | None => Undefined
    end.

(** [new (dest) derived( ... )] *)
Definition placement_new (dest : N) (e : erasure) : comp unit :=
  modify (set_storage <[dest := e]>).

Definition end_lifetime (this : N) : comp unit :=
  modify (set_storage (delete this)).

(** Running a payload constructor on [v]. *)
Definition run_constructor (c : constructor) (v : value) : comp value :=
  match c with
  | ctor_noexcept => ret v
  | ctor_throwing f =>
      match f v with
      | Some e => throw e
      | None => ret v
      end
  end.

(** [T( std::forward< arg >( a ) )] for [a] an lvalue or an rvalue of [T]. *)
Definition construct_from (T : payload_type) (cat : value_category) (v : value) : comp value :=
  match cat with
  | lvalue => run_constructor (copy_ctor T) v
  | rvalue => run_constructor (move_ctor T) v
  end.

(** ** [std::allocator_traits] *)

Definition arena_full (a : allocator) (w : world) : bool :=
  match capacity a with
  | Some c => bool_decide (c <= size (heap w))
  | None => false
  end.

(** [allocate( alloc, n )]: a fresh raw block, or [std::bad_alloc]. *)
Definition allocate (a : allocator) (n : nat) : comp pointer :=
  fun w =>
    if arena_full a w then Throws bad_alloc w
    else
      let l := fresh (dom (heap w)) in
      Returns (on_heap l) (set_heap <[l := None]> (ev_allocate a n l) w).

(** [construct( alloc, p, std::forward< arg >( a ) )]: builds a [T] in the
    raw block at [p]. *)
Definition construct (a : allocator) (p : pointer) (T : payload_type)
    (cat : value_category) (v : value) : comp unit :=
  match p with
  | on_heap l =>
      fun w =>
        match heap w !! l with
        | Some None =>
            (v' <- construct_from T cat v ;;
             modify (set_heap <[l := Some v']> (ev_construct a l))) w
        | _ => Undefined
        end
  | _ => undefined
  end.

(** [destroy( alloc, p )]: runs the destructor of the object at [p]; the
    block stays allocated. *)
Definition allocator_destroy (a : allocator) (p : pointer) : comp unit :=
  match p with
  | on_heap l =>
      fun w =>
        match heap w !! l with
        | Some (Some _) => Returns tt (set_heap <[l := None]> (ev_destroy a l) w)
        | _ => Undefined
        end
  | _ => undefined
  end.

(** [* p] *)
Definition dereference (p : pointer) (w : world) : option value :=
  match p with
  | nullptr => None
  | in_storage c =>
      match storage w !! c with
      | Some (local_erasure _ v) | Some (ptm_erasure _ v) => Some v
      | _ => None
      end
  | on_heap l => mjoin (heap w !! l)
  end.

(** [* p = v] *)
Definition assign_through (p : pointer) (v : value) : comp unit :=
  fun w =>
    match p with
    | nullptr => Undefined
    | in_storage c =>
        match storage w !! c with
        | Some (local_erasure T _) =>
            Returns tt (set_storage <[c := local_erasure T v]> w)
        | Some (ptm_erasure T _) =>
            Returns tt (set_storage <[c := ptm_erasure T v]> w)
        | _ => Undefined
        end
    | on_heap l =>
        match heap w !! l with
        | Some (Some _) => Returns tt (write_heap l v w)
        | _ => Undefined
        end
    end.

(** A call expression on the object at [p]: the target's new state is
    written back, the result returned or the exception thrown. *)
Definition call_through (T : payload_type) (s : signature) (p : pointer) (a : args)
    : comp result :=
  fun w =>
    match dereference p w with
    | Some v =>
        (assign_through p (fst (call T s v a)) ;;;
         match snd (call T s v a) with
         | inl r => ret r
         | inr e => throw e
         end) w
    | None => Undefined
    end.

(** ** The dispatch table (lines 40-70) *)

(** [erasure_base< sig ... >::dispatch_table]: the member functions take the
    erasure they act on as the wrapper whose storage holds it.  The copy
    constructor entry is a pointer to member that may be null. *)
Record dispatch_table := {
  destructor : N -> comp unit;
  move_constructor : N -> N -> comp unit;
  copy_constructor : option (N -> N -> comp unit);
  target_access : N -> comp pointer;
  target_type : type_info;
  dispatchers : list (N -> args -> comp result)
}.

(** ** Constructors and destructors of the erasure classes
       (lines 152-153, 185-188, 211-213, 242-262) *)

(** [~ derived()]: only [allocator_erasure] declares one. *)
Definition destructor_body (e : erasure) : comp unit :=
  match e with
  | allocator_erasure alloc T target => allocator_destroy alloc target
  | _ => ret tt
  end.

(** [derived( derived && o )]: the new object and what is left of [o]. *)
Definition move_construct (o : erasure) : comp (erasure * erasure) :=
  match o with
  | null_erasure => ret (null_erasure, null_erasure)
  | local_erasure T target =>
      t <- construct_from T rvalue target ;;
      ret (local_erasure T t, local_erasure T target)
  | ptm_erasure T target => ret (ptm_erasure T target, ptm_erasure T target)
  | allocator_erasure alloc T target =>
      ret (allocator_erasure alloc T target, allocator_erasure alloc T nullptr)
  end.

(** [derived( derived const & o )] *)
Definition copy_construct (o : erasure) : comp erasure :=
  match o with
  | null_erasure => ret null_erasure
  | local_erasure T target =>
      t <- construct_from T lvalue target ;;
      ret (local_erasure T t)
  | ptm_erasure T target => ret (ptm_erasure T target)
  | allocator_erasure alloc T target =>
      p <- allocate alloc 1 ;;
      fun w =>
        match dereference target w with
        | Some v => (construct alloc p T lvalue v ;;; ret (allocator_erasure alloc T p)) w
        | None => Undefined
        end
  end.

(** [local_erasure( arg && ... a )] *)
Definition local_erasure_ctor (T : payload_type) (cat : value_category) (a : value)
    : comp erasure :=
  t <- construct_from T cat a ;;
  ret (local_erasure T t).

(** [allocator_erasure( allocator in_alloc, arg && ... a )] *)
Definition allocator_erasure_ctor (in_alloc : allocator) (T : payload_type)
    (cat : value_category) (a : value) : comp erasure :=
  target <- allocate in_alloc 1 ;;
  construct in_alloc target T cat a ;;;
  ret (allocator_erasure in_alloc T target).

(** ** [erasure_special< derived >] (lines 72-81) *)

Definition erasure_special_destroy (this : N) : comp unit :=
  e <- erasure_cast this ;;
  destructor_body e ;;;
  end_lifetime this.

Definition erasure_special_move (this dest : N) : comp unit :=
  o <- erasure_cast this ;;
  r <- move_construct o ;;
  placement_new this (snd r) ;;;
  placement_new dest (fst r).

Definition erasure_special_copy (this dest : N) : comp unit :=
  o <- erasure_cast this ;;
  e <- copy_construct o ;;
  placement_new dest e.

(** ** Qualifications *)

Definition add_const (q : qualifiers) : qualifiers :=
  {| q_const := true; q_volatile := q_volatile q; q_ref := q_ref q |}.

Definition add_volatile (q : qualifiers) : qualifiers :=
  {| q_const := q_const q; q_volatile := true; q_ref := q_ref q |}.

Definition add_ref (r : ref_qualifier) (q : qualifiers) : qualifiers :=
  {| q_const := q_const q; q_volatile := q_volatile q; q_ref := r |}.

Definition no_quals : qualifiers :=
  {| q_const := false; q_volatile := false; q_ref := ref_none |}.

Definition non_const_lvalue : qualifiers := add_ref ref_lvalue no_quals.

(** [typename add_reference< derived QUALS >::type]: an rvalue reference when
    [QUALS] ends in [&&], else an lvalue reference; a member accessed through
    the cast has its cv-qualification and value category. *)
Definition add_reference (q : qualifiers) : qualifiers :=
  add_ref (match q_ref q with ref_rvalue => ref_rvalue | _ => ref_lvalue end) q.

(** The call wrapper that [std::mem_fn] returns: a prvalue. *)
Definition mem_fn_result : qualifiers := add_ref ref_rvalue no_quals.

(** [ret( args ... )] of the signature [s], called on an object expression
    of qualification [q]. *)
Definition call_as (q : qualifiers) (s : signature) : signature :=
  {| sig_ret := sig_ret s; sig_params := sig_params s; sig_quals := q |}.

(** ** Call operators of the erasure classes
       (lines 138-141, 158-172, 193-198, 219-225) *)

(** [NULL_CASE]: [throw std::bad_function_call{};] *)
Definition null_dispatch (s : signature) (this : N) (a : args) : comp result :=
  throw bad_function_call.

(** [LOCAL_CASE]:
    [static_cast< typename add_reference< derived QUALS >::type >( * this )
       .target( a ... )] *)
Definition local_dispatch (s : signature) (this : N) (a : args) : comp result :=
  e <- erasure_cast this ;;
  match e with
  | local_erasure T _ =>
      call_through T (call_as (add_reference (sig_quals s)) s) (in_storage this) a
  | _ => undefined
  end.

(** [PTM_CASE]:
    [std::mem_fn( static_cast< derived const volatile & >( * this ).target )
       ( a ... )], whatever [QUALS] is *)
Definition ptm_dispatch (s : signature) (this : N) (a : args) : comp result :=
  e <- erasure_cast this ;;
  match e with
  | ptm_erasure T _ => call_through T (call_as mem_fn_result s) (in_storage this) a
  | _ => undefined
  end.

(** [ALLOCATOR_CASE]:
    [( * static_cast< typename add_reference< derived QUALS >::type >( * this )
       .target )( a ... )]: [QUALS] qualifies the pointer member, and the
    pointer is dereferenced before the call, so the payload is called as a
    non-const lvalue whatever [QUALS] is. *)
Definition allocator_dispatch (s : signature) (this : N) (a : args) : comp result :=
  e <- erasure_cast this ;;
  match e with
  | allocator_erasure _ T target => call_through T (call_as non_const_lvalue s) target a
  | _ => undefined
  end.

(** ** [target_access] of the erasure classes (lines 150, 183, 209, 240) *)

Definition null_target_access (this : N) : comp pointer := ret nullptr.

(** [return & target;] in [local_erasure] and [ptm_erasure] *)
Definition local_target_access (this : N) : comp pointer :=
  e <- erasure_cast this ;;
  match e with
  | local_erasure _ _ => ret (in_storage this)
  | _ => undefined
  end.

Definition ptm_target_access (this : N) : comp pointer :=
  e <- erasure_cast this ;;
  match e with
  | ptm_erasure _ _ => ret (in_storage this)
  | _ => undefined
  end.

(** [return std::addressof( * target );] *)
Definition allocator_target_access (this : N) : comp pointer :=
  e <- erasure_cast this ;;
  match e with
  | allocator_erasure _ _ (on_heap l) => ret (on_heap l)
  | _ => undefined
  end.

(** ** [DISPATCH_TABLE( NAME, TARGET_TYPE, TPARAM, TARG )] (lines 127-136) *)

(** The copy entry is [& NAME::copy] for every erasure class: the accessor
    [erasure_copy] (lines 83-91), which would answer a null pointer for an
    erasure that cannot be copied, is used nowhere. *)
Definition DISPATCH_TABLE (NAME_target_access : N -> comp pointer)
    (TARGET_TYPE : type_info)
    (NAME_call : signature -> N -> args -> comp result) : dispatch_table :=
  {| destructor := erasure_special_destroy;
     move_constructor := erasure_special_move;
     copy_constructor := Some erasure_special_copy;
     target_access := NAME_target_access;
     target_type := TARGET_TYPE;
     dispatchers := map NAME_call sigs |}.

Definition null_erasure_table : dispatch_table :=
  DISPATCH_TABLE null_target_access typeid_void null_dispatch.

Definition local_erasure_table (T : payload_type) : dispatch_table :=
  DISPATCH_TABLE local_target_access (typeid T) local_dispatch.

Definition ptm_erasure_table (T : payload_type) : dispatch_table :=
  DISPATCH_TABLE ptm_target_access (typeid T) ptm_dispatch.

Definition allocator_erasure_table (T : payload_type) : dispatch_table :=
  DISPATCH_TABLE allocator_target_access (typeid T) allocator_dispatch.

(** [erasure().table]: every constructor of an erasure class binds the
    table of its own class. *)
Definition table (e : erasure) : dispatch_table :=
  match e with
  | null_erasure => null_erasure_table
  | local_erasure T _ => local_erasure_table T
  | ptm_erasure T _ => ptm_erasure_table T
  | allocator_erasure _ T _ => allocator_erasure_table T
  end.

(** ** The qualifier cases: [DISPATCH_ALL] (lines 116-119) *)

(** The [UNSAFE] argument of a case: [UNPACK] keeps the
    [const_unsafe_case], [IGNORE] drops it. *)
Inductive unsafe_macro := UNPACK | IGNORE.

(** [MACRO( QUALS, UNSAFE ) MACRO( const QUALS, IGNORE )] *)
Definition DISPATCH_CQ (UNSAFE : unsafe_macro) (q : qualifiers)
    : list (qualifiers * unsafe_macro) :=
  [(q, UNSAFE); (add_const q, IGNORE)].

Definition DISPATCH_CV (UNSAFE : unsafe_macro) (q : qualifiers)
    : list (qualifiers * unsafe_macro) :=
  DISPATCH_CQ UNSAFE q ++ DISPATCH_CQ IGNORE (add_volatile q).

Definition DISPATCH_CVREFQ (q : qualifiers) : list (qualifiers * unsafe_macro) :=
  DISPATCH_CV IGNORE (add_ref ref_lvalue q) ++ DISPATCH_CV IGNORE (add_ref ref_rvalue q).

Definition DISPATCH_ALL : list (qualifiers * unsafe_macro) :=
  DISPATCH_CV UNPACK no_quals ++ DISPATCH_CVREFQ no_quals.

(** The [UNSAFE] argument with which the case of [q] is generated. *)
Definition unsafe_of (q : qualifiers) : option unsafe_macro :=
  match find (fun c => bool_decide (fst c = q)) DISPATCH_ALL with
  | Some c => Some (snd c)
  | None => None
  end.

(** ** [wrapper_dispatch]: the call operators of the wrapper
       (lines 96-114, 266-287) *)

(** A call operator of the wrapper: [ret operator () ( args ... ) QUALS]
    of [WRAPPER_CASE], forwarding to the table entry
    [base_index + table_index]; the deprecated
    [ret operator () ( args ... ) const] of a [const_unsafe_case]; or
    [void operator () () = delete] of [DISPATCH_BASE_CASE]. *)
Inductive call_operator :=
| wrapper_case (s : signature) (table_index : nat)
| const_unsafe_case (ret : string) (params : list string)
| base_case.

#[global] Instance call_operator_eq_dec : EqDecision call_operator.
Proof. solve_decision. Defined.

(** [wrapper_dispatch< derived, table_index, sig ... >]: one class per
    signature declaring its operator, the [const_unsafe_case]s appended
    behind the signatures still to come ([unsafe] collects them), and the
    primary template at the root; most derived first. *)
Fixpoint wrapper_dispatch (table_index : nat) (sig : list signature)
    (unsafe : list (string * list string)) : list call_operator :=
  match sig with
  | s :: more =>
      wrapper_case s table_index
      :: wrapper_dispatch (S table_index) more
           (match unsafe_of (sig_quals s) with
            | Some UNPACK => unsafe ++ [(sig_ret s, sig_params s)]
            | _ => unsafe
            end)
  | [] => ((fun t => const_unsafe_case (fst t) (snd t)) <$> unsafe) ++ [base_case]
  end.

Definition call_operators : list call_operator := wrapper_dispatch 0 sigs [].

Definition const_quals : qualifiers := add_const no_quals.

Definition operator_params (o : call_operator) : list string :=
  match o with
  | wrapper_case s _ => sig_params s
  | const_unsafe_case _ params => params
  | base_case => []
  end.

Definition operator_quals (o : call_operator) : qualifiers :=
  match o with
  | wrapper_case s _ => sig_quals s
  | const_unsafe_case _ _ => const_quals
  | base_case => no_quals
  end.


(** ** Calls on a wrapper: name lookup and overload resolution *)

(** A member of a derived class hides the base member that a
    using-declaration would bring up when both have the same parameter list
    and qualifiers, whatever their return types. *)
Definition same_member (o o' : call_operator) : Prop :=
  operator_params o = operator_params o' /\ operator_quals o = operator_quals o'.

#[global] Instance same_member_dec o o' : Decision (same_member o o').
Proof. unfold same_member. apply _. Defined.

(** What the name [operator ()] finds in the most derived of [classes]:
    the operator the class declares, and through
    [using ... ::operator ()] those found in its base that it does not
    hide. *)
Fixpoint lookup_set (classes : list call_operator) : list call_operator :=
  match classes with
  | o :: bases => o :: filter (fun o' => ~ same_member o o') (lookup_set bases)
  | [] => []
  end.

Definition overload_set : list call_operator := lookup_set call_operators.

(** Whether the implicit object parameter of a member function with
    qualifiers [q] binds an object expression of cv-qualification and value
    category [path] ([q_ref path] is [ref_rvalue] for an rvalue). *)
Definition viable (path q : qualifiers) : bool :=
  (implb (q_const path) (q_const q))
  && (implb (q_volatile path) (q_volatile q))
  && match q_ref q, q_ref path with
     | ref_none, _ => true
     | ref_lvalue, ref_rvalue => q_const q && negb (q_volatile q)
     | ref_lvalue, _ => true
     | ref_rvalue, ref_rvalue => true
     | ref_rvalue, _ => false
     end.

(** [q'] is more cv-qualified than [q]. *)
Definition more_cv_qualified (q' q : qualifiers) : bool :=
  implb (q_const q) (q_const q') && implb (q_volatile q) (q_volatile q')
  && negb (bool_decide (q_const q = q_const q' /\ q_volatile q = q_volatile q')).

(** Whether binding [path] to the implicit object parameter of [q] is a
    better conversion than binding it to that of [q']: between two
    ref-qualified functions an rvalue binds better to [&&]; failing that,
    the less cv-qualified parameter is the better one. *)
Definition better (path q q' : qualifiers) : bool :=
  match q_ref path, q_ref q, q_ref q' with
  | ref_rvalue, ref_rvalue, ref_lvalue => true
  | ref_rvalue, ref_lvalue, ref_rvalue => false
  | _, _, _ => more_cv_qualified q' q
  end.

(** The viable operators for a call [c( a ... )] on an object expression
    [path] with arguments of the types [params]; an argument list selects
    the operators of exactly these parameter types (conversions of the
    arguments are not modelled). *)
Definition candidates (path : qualifiers) (params : list string) : list call_operator :=
  filter (fun o => operator_params o = params /\ viable path (operator_quals o) = true)
         overload_set.

(** The candidate that is better than every other one. *)
Definition best_viable (path : qualifiers) (cands : list call_operator)
    : option call_operator :=
  find (fun o =>
          forallb (fun o' => bool_decide (o' = o)
                             || better path (operator_quals o) (operator_quals o'))
                  cands)
       cands.

(** The operator that the call selects; [None] when the call is ill-formed:
    no viable operator, no best one, or the deleted one. *)
Definition resolve (path : qualifiers) (params : list string) : option call_operator :=
  match best_viable path (candidates path params) with
  | Some base_case => None
  | selected => selected
  end.

(** [WRAPPER_CASE]:
    [( self.erasure() .* std::get< + dispatch_slot::base_index + table_index >
       ( self.erasure().table ) )( a ... )] *)
Definition call_wrapper_case (table_index : nat) (this : N) (a : args) : comp result :=
  e <- erasure_cast this ;;
  match dispatchers (table e) !! table_index with
  | Some f => f this a
  | None => undefined
  end.

(** The call [c( a ... )] on a wrapper expression of qualification [path]
    with arguments of the types [params].  The [const_unsafe_case] operator
    makes the call again on [const_cast< derived & >( * this )]. *)
Definition invoke (path : qualifiers) (params : list string) (this : N) (a : args)
    : option (comp result) :=
  match resolve path params with
  | Some (wrapper_case _ n) => Some (call_wrapper_case n this a)
  | Some (const_unsafe_case _ _) =>
      match resolve non_const_lvalue params with
      | Some (wrapper_case _ n) => Some (call_wrapper_case n this a)
      | _ => None
      end
  | _ => None
  end.

(** ** [wrapper_base< sig ... >] (lines 289-424) *)

(** [sizeof (storage)], for [std::aligned_storage< sizeof (void *[4]) >]. *)
Definition sizeof_storage : N := 4 * sizeof_pointer.

Definition round_up (n a : N) : N := (n + a - 1) / a * a.

(** [sizeof (local_erasure< T, sig ... >)]: the table reference, then the
    target at its alignment; the empty bases take no room. *)
Definition sizeof_local_erasure (T : payload_type) : N :=
  round_up (round_up sizeof_pointer (align_of T) + size_of T)
           (N.max sizeof_pointer (align_of T)).

(** [sizeof (allocator_erasure< allocator, T, sig ... >)]: the table
    reference, the allocator base and the pointer. *)
Definition sizeof_allocator_erasure (alloc : allocator) : N :=
  round_up (sizeof_pointer + alloc_size alloc) sizeof_pointer + sizeof_pointer.

(** [is_small< source >], from the three quantities it tests. *)
Definition is_small_of (sizeof_erasure alignof_source : N) (nothrow_move : bool) : bool :=
  (sizeof_erasure <=? sizeof_storage)%N
  && (alignof_source <=? alignof_storage)%N
  && nothrow_move.

Definition is_small (T : payload_type) : bool :=
  is_small_of (sizeof_local_erasure T) (align_of T) (is_nothrow_move_constructible T).

(** [is_small< T & >]: the erasure would hold a reference, and a reference
    is nothrow move constructible from itself. *)
Definition is_small_reference (T : payload_type) : bool :=
  is_small_of (2 * sizeof_pointer) (align_of T) true.

(** [is_small< std::nullptr_t >] *)
Definition is_small_nullptr_t : bool :=
  is_small_of (2 * sizeof_pointer) sizeof_pointer true.

(** What a wrapper is constructed or assigned from: [nullptr]; another
    [wrapper_base] of the same signature set, as a non-const lvalue or an
    rvalue ([from_wrapper]) or as a const lvalue ([from_const_wrapper],
    which is also how the implicit copy members of [function] pass their
    argument on); or a callable [s] of decayed type [T]. *)
Inductive source :=
| from_nullptr
| from_wrapper (cat : value_category) (o : N)
| from_callable (cat : value_category) (T : payload_type) (s : value)
| from_const_wrapper (o : N).

Definition is_compatibly_wrapped (s : source) : bool :=
  match s with
  | from_wrapper _ _ | from_const_wrapper _ => true
  | _ => false
  end.

(** [void destroy() noexcept] *)
Definition destroy (this : N) : comp unit :=
  noexcept (e <- erasure_cast this ;; destructor (table e) this).

(** [void init( std::nullptr_t = {} ) noexcept] *)
Definition init_nullptr (this : N) : comp unit :=
  noexcept (placement_new this null_erasure).

(** [operator = ( source && s )] for the [init] overload and the exception
    specification that [source] selects:
    [try { destroy(); init( s ); return * this; }
     catch (...) { init(); throw; }] *)
Definition operator_assign_template (nothrow : bool) (init_s : N -> comp unit) (this : N)
    : comp unit :=
  noexcept_if nothrow
    (try_catch (destroy this ;;; init_s this)
               (fun e => init_nullptr this ;;; throw e)).

(** [o = nullptr] *)
Definition operator_assign_nullptr (o : N) : comp unit :=
  operator_assign_template is_small_nullptr_t init_nullptr o.

(** [void init( wrapper_base && o ) noexcept] *)
Definition init_move (this o : N) : comp unit :=
  noexcept
    (e <- erasure_cast o ;;
     move_constructor (table e) o this ;;;
     operator_assign_nullptr o).

(** [void init( wrapper_base const & o )] *)
Definition init_copy (this o : N) : comp unit :=
  e <- erasure_cast o ;;
  match copy_constructor (table e) with
  | Some copy => copy o this
  | None => undefined
  end.

(** [init( any_piecewise_construct_tag< source >, arg && ... a )], small *)
Definition init_local (this : N) (T : payload_type) (cat : value_category) (a : value)
    : comp unit :=
  e <- local_erasure_ctor T cat a ;;
  placement_new this e.

(** [init( any_piecewise_construct_tag< t * >, t * p )] *)
Definition init_pointer (this : N) (T : payload_type) (p : value) : comp unit :=
  if is_nonnull T p then placement_new this (local_erasure T p)
  else init_nullptr this.

(** [init( any_piecewise_construct_tag< t c::* >, t c::* ptm )] *)
Definition init_ptm (this : N) (T : payload_type) (ptm : value) : comp unit :=
  if is_nonnull T ptm then placement_new this (ptm_erasure T ptm)
  else init_nullptr this.

(** [init( std::allocator_arg_t, allocator const & alloc,
          any_piecewise_construct_tag< source >, arg && ... a )], not small;
    the [static_assert] rejects an erasure larger than the storage. *)
Definition init_allocated (this : N) (alloc : allocator) (T : payload_type)
    (cat : value_category) (a : value) : comp unit :=
  if (sizeof_allocator_erasure alloc <=? sizeof_storage)%N
  then e <- allocator_erasure_ctor alloc T cat a ;; placement_new this e
  else undefined.

(** [init( any_piecewise_construct_tag< T >, a )]: the pointer and
    pointer-to-member overloads are the more specialized ones; a small
    source is erased locally, any other with [std::allocator< source >{}]. *)
Definition init_tag (this : N) (T : payload_type) (cat : value_category) (a : value)
    : comp unit :=
  match category T with
  | pointer_type => init_pointer this T a
  | member_pointer_type => init_ptm this T a
  | class_type =>
      if is_small T then init_local this T cat a
      else init_allocated this std_allocator T cat a
  end.

(** [init( std::allocator_arg_t, allocator const &,
          any_piecewise_construct_tag< T > t, a )] *)
Definition init_allocator_tag (this : N) (alloc : allocator) (T : payload_type)
    (cat : value_category) (a : value) : comp unit :=
  if is_small T then init_tag this T cat a
  else init_allocated this alloc T cat a.

(** The overload of [init] that a single argument selects. *)
Definition init (s : source) (this : N) : comp unit :=
  match s with
  | from_nullptr => init_nullptr this
  | from_wrapper rvalue o => init_move this o
  | from_wrapper lvalue o => init_copy this o
  | from_callable cat T a => init_tag this T cat a
  | from_const_wrapper o => init_copy this o
  end.

(** The implicitly declared copy constructor and copy assignment operator
    of [wrapper_base]: they copy the member [storage], byte for byte, and
    call neither [destroy] nor [init]. *)
Definition implicit_copy (this o : N) : comp unit :=
  modify (set_storage (fun m =>
            match m !! o with
            | Some e => <[this := e]> m
            | None => delete this m
            end)).

(** [init( std::allocator_arg_t at, allocator const & alloc, source && s )] *)
Definition init_allocator_arg (alloc : allocator) (cat : value_category)
    (T : payload_type) (s : value) (this : N) : comp unit :=
  init_allocator_tag this alloc T cat s.

(** [noexcept(noexcept( init( std::forward< arg >( a ) ... ) ))] *)
Definition init_noexcept (s : source) : bool :=
  match s with
  | from_nullptr => true
  | from_wrapper rvalue _ => true
  | _ => false
  end.

(** [wrapper_base( arg && ... a )]; for a const lvalue [wrapper_base] the
    constructor template ties with the implicit copy constructor, and the
    non-template is selected. *)
Definition wrapper_base (s : source) (this : N) : comp unit :=
  match s with
  | from_const_wrapper o => implicit_copy this o
  | _ => noexcept_if (init_noexcept s) (init s this)
  end.

Definition wrapper_base_allocator_arg (alloc : allocator) (cat : value_category)
    (T : payload_type) (s : value) (this : N) : comp unit :=
  init_allocator_arg alloc cat T s this.

(** [~ wrapper_base() noexcept] *)
Definition wrapper_base_dtor (this : N) : comp unit :=
  noexcept (destroy this).

(** [noexcept( is_compatibly_wrapped< source >::value
              || is_small< source >::value )], [source] being [T &] for an
    lvalue argument and [T] for an rvalue. *)
Definition operator_assign_noexcept (s : source) : bool :=
  is_compatibly_wrapped s
  || match s with
     | from_nullptr => is_small_nullptr_t
     | from_wrapper _ _ | from_const_wrapper _ => false
     | from_callable lvalue T _ => is_small_reference T
     | from_callable rvalue T _ => is_small T
     end.

(** [wrapper_base & operator = ( source && s )]; for a const lvalue
    [wrapper_base] the implicit copy assignment operator is selected. *)
Definition operator_assign (s : source) (this : N) : comp unit :=
  match s with
  | from_const_wrapper o => implicit_copy this o
  | _ => operator_assign_template (operator_assign_noexcept s) (init s) this
  end.

(** [std::type_info const & target_type() const noexcept] *)
Definition wrapper_target_type (this : N) : comp type_info :=
  noexcept (e <- erasure_cast this ;; ret (target_type (table e))).

(** [want const * target() const noexcept], [want] given by [typeid (want)] *)
Definition target (want : type_info) (this : N) : comp pointer :=
  noexcept
    (t <- wrapper_target_type this ;;
     if bool_decide (want <> t) then ret nullptr
     else e <- erasure_cast this ;; target_access (table e) this).

(** [explicit operator bool () const noexcept] *)
Definition operator_bool (this : N) : comp bool :=
  noexcept (t <- wrapper_target_type this ;; ret (bool_decide (t <> typeid_void))).

(** ** Observations on wrappers *)

(** The wrapper [this] is Empty: its storage holds the [null_erasure]. *)
Definition Empty (w : world) (this : N) : Prop :=
  storage w !! this = Some null_erasure.

(** The wrapper [this] holds the payload [v] of type [T]. *)
Definition holds (w : world) (this : N) (T : payload_type) (v : value) : Prop :=
  match storage w !! this with
  | Some (local_erasure T' v') | Some (ptm_erasure T' v') => T' = T /\ v' = v
  | Some (allocator_erasure _ T' (on_heap l)) => T' = T /\ heap w !! l = Some (Some v)
  | _ => False
  end.

(** The erasure owns what its destructor needs: an [allocator_erasure]
    points at a live object. *)
Definition intact (w : world) (e : erasure) : Prop :=
  match e with
  | allocator_erasure _ _ (on_heap l) => exists v, heap w !! l = Some (Some v)
  | allocator_erasure _ _ _ => False
  | _ => True
  end.

(** The wrapper [this] is in a valid state. *)
Definition valid (w : world) (this : N) : Prop :=
  exists e, storage w !! this = Some e /\ intact w e.

(** A result or an exception as the outcome of a call. *)
Definition outcome_of (r : result + exception) (w : world) : outcome world result :=
  match r with
  | inl x => Returns x w
  | inr e => Throws e w
  end.

(** The world after a call that left the target of [this] in state [v]. *)
Definition with_target (this : N) (v : value) (w : world) : world :=
  match storage w !! this with
  | Some (local_erasure T _) => set_storage <[this := local_erasure T v]> w
  | Some (ptm_erasure T _) => set_storage <[this := ptm_erasure T v]> w
  | Some (allocator_erasure _ _ (on_heap l)) => write_heap l v w
  | _ => w
  end.

(** The object expression on which the dispatcher of the erasure [e] calls
    its target for a signature of qualifiers [q]. *)
Definition target_expression (e : erasure) (q : qualifiers) : qualifiers :=
  match e with
  | allocator_erasure _ _ _ => non_const_lvalue
  | ptm_erasure _ _ => mem_fn_result
  | _ => add_reference q
  end.

(** The signature [s] as the erasure in the storage of [this] calls its
    target for it. *)
Definition called_as (w : world) (this : N) (s : signature) : signature :=
  match storage w !! this with
  | Some e => call_as (target_expression e (sig_quals s)) s
  | None => s
  end.

(** A callable that [init] erases instead of degrading to Empty. *)
Definition storable (T : payload_type) (v : value) : Prop :=
  category T = class_type \/ is_nonnull T v = true.

(** The blocks some allocator handed out and none took back. *)
Definition allocated (w : world) : gset positive := dom (heap w).


(** ** The rest of the interface (lines 407-408, 442-450) *)

(** [void swap( wrapper_base & other ) { std::swap( * this, other ); }],
    [std::swap] being
    [T tmp( std::move( a ) ); a = std::move( b ); b = std::move( tmp );]
    with [tmp] destroyed at the end; [tmp] names the storage of the
    temporary. *)
Definition swap (tmp this other : N) : comp unit :=
  wrapper_base (from_wrapper rvalue this) tmp ;;;
  operator_assign (from_wrapper rvalue other) this ;;;
  operator_assign (from_wrapper rvalue tmp) other ;;;
  wrapper_base_dtor tmp.

(** [bool operator == ( function< sig ... > const & a, std::nullptr_t )
      { return !a; }] *)
Definition eq_nullptr (a : N) : comp bool :=
  b <- operator_bool a ;; ret (negb b).

(** [bool operator == ( std::nullptr_t, function< sig ... > const & a )
      { return !a; }] *)
Definition nullptr_eq (a : N) : comp bool :=
  b <- operator_bool a ;; ret (negb b).

(** The two [operator !=] (lines 445-447, 451-453) are [{ return a; }]:
    the return statement asks for an implicit conversion of the wrapper to
    [bool], which the explicit [operator bool] does not give, so neither
    can be instantiated and they have no run to describe. *)

(** An erasure that lives wholly inside the storage and whose move
    constructor cannot throw: Empty, a pointer to member, or a local
    erasure of a nothrow move constructible target. *)
Definition inline_erasure (e : erasure) : Prop :=
  match e with
  | allocator_erasure _ _ _ => False
  | local_erasure T _ => move_ctor T = ctor_noexcept
  | _ => True
  end.

End impl.

Arguments constructor : clear implicits.
Arguments payload_type : clear implicits.
Arguments erasure : clear implicits.
Arguments world : clear implicits.
Arguments dispatch_table : clear implicits.
Arguments source : clear implicits.


(** ** Example payloads and instantiations *)

(** Values of the examples: a function or member pointer by its address
    (0 is null), a closure by its captures. *)
Inductive example_value :=
| address (p : Z)
| closure (captures : list Z).

Definition sum_list (l : list Z) : Z := foldr Z.add 0%Z l.

(** [if ( p )] on an address. *)
Definition nonnull_address (p : example_value) : bool :=
  match p with
  | address 0 => false
  | _ => true
  end.

Abbreviation example_type := (payload_type example_value (list Z) Z).

(** [int add( int, int )] behind a pointer to function. *)
Definition add_pointer : example_type :=
  {| type_name := "pointer to int(int, int)";
     category := pointer_type;
     size_of := 8;
     align_of := 8;
     copy_ctor := ctor_noexcept;
     move_ctor := ctor_noexcept;
     is_nonnull := nonnull_address;
     call := fun _ p a => (p, inl (sum_list a)) |}.

(** A pointer to member function, called on an object passed first. *)
Definition member_pointer : example_type :=
  {| type_name := "pointer to member int(int) of c";
     category := member_pointer_type;
     size_of := 16;
     align_of := 8;
     copy_ctor := ctor_noexcept;
     move_ctor := ctor_noexcept;
     is_nonnull := nonnull_address;
     call := fun _ p a => (p, inl (sum_list a)) |}.

(** A closure capturing eight 8-byte values; it adds them to its arguments. *)
Definition big_closure : example_type :=
  {| type_name := "big_closure";
     category := class_type;
     size_of := 64;
     align_of := 8;
     copy_ctor := ctor_noexcept;
     move_ctor := ctor_noexcept;
     is_nonnull := fun _ => true;
     call := fun _ v a =>
       match v with
       | closure c => (v, inl (sum_list c + sum_list a)%Z)
       | address _ => (v, inl 0%Z)
       end |}.

(** A small functor counting its calls; copying it throws, moving does not. *)
Definition counter : example_type :=
  {| type_name := "counter";
     category := class_type;
     size_of := 8;
     align_of := 8;
     copy_ctor := ctor_throwing (fun _ => Some (user_exception 7));
     move_ctor := ctor_noexcept;
     is_nonnull := fun _ => true;
     call := fun _ v a =>
       match v with
       | closure [n] => (closure [(n + 1)%Z], inl n)
       | _ => (v, inl 0%Z)
       end |}.

(** A large closure whose move constructor throws. *)
Definition fragile_closure : example_type :=
  {| type_name := "fragile_closure";
     category := class_type;
     size_of := 64;
     align_of := 8;
     copy_ctor := ctor_noexcept;
     move_ctor := ctor_throwing (fun _ => Some (user_exception 9));
     is_nonnull := fun _ => true;
     call := fun _ v a => (v, inl (sum_list a)) |}.

(** A small functor whose call operator throws [std::bad_function_call]. *)
Definition thrower : example_type :=
  {| type_name := "thrower";
     category := class_type;
     size_of := 1;
     align_of := 1;
     copy_ctor := ctor_noexcept;
     move_ctor := ctor_noexcept;
     is_nonnull := fun _ => true;
     call := fun _ v a => (v, inr bad_function_call) |}.

(** A functor with two call operators, [int operator () ( int, int ) const]
    returning 6 and [int operator () ( int, int )] returning 7, and [n]
    bytes of state. *)
Definition two_faced (n : N) : example_type :=
  {| type_name := "two_faced";
     category := class_type;
     size_of := n;
     align_of := 8;
     copy_ctor := ctor_noexcept;
     move_ctor := ctor_noexcept;
     is_nonnull := fun _ => true;
     call := fun s v a => (v, inl (if q_const (sig_quals s) then 6 else 7)%Z) |}.

Definition int_int : list string := ["int"; "int"].

(** [function< int( int, int ) >] on an LP64 platform. *)
Definition function_int_int_int : instantiation :=
  {| sigs := [SIG "int" int_int no_quals];
     sizeof_pointer := 8;
     alignof_storage := 16 |}.


(** [function< int( int, int ) const >] *)
Definition function_const : instantiation :=
  {| sigs := [SIG "int" int_int const_quals];
     sizeof_pointer := 8;
     alignof_storage := 16 |}.

(** [function< int( int, int ), int( int, int ) const >] *)
Definition function_both : instantiation :=
  {| sigs := [SIG "int" int_int no_quals; SIG "int" int_int const_quals];
     sizeof_pointer := 8;
     alignof_storage := 16 |}.

(** [function< int( int, int ), long( int, int ) const >] *)
Definition function_int_long : instantiation :=
  {| sigs := [SIG "int" int_int no_quals; SIG "long" int_int const_quals];
     sizeof_pointer := 8;
     alignof_storage := 16 |}.

(** [function< int() const >] *)
Definition function_nullary_const : instantiation :=
  {| sigs := [SIG "int" [] const_quals];
     sizeof_pointer := 8;
     alignof_storage := 16 |}.

Definition empty_world : world example_value (list Z) Z :=
  {| storage := ∅; heap := ∅; events := [] |}.

(** A bounded arena with room for [n] blocks. *)
Definition arena_of (n : nat) : allocator :=
  {| arena := 1; capacity := Some n; alloc_size := 0 |}.

Definition const_lvalue : qualifiers := add_ref ref_lvalue const_quals.

Definition eight : example_value := closure [1; 2; 3; 4; 5; 6; 7; 8]%Z.

Abbreviation example_world := (world example_value (list Z) Z).

(** Wrapper 1 is Empty. *)
Definition null_world : example_world :=
  {| storage := {[ 1%N := null_erasure ]}; heap := ∅; events := [] |}.

(** Wrapper 1 holds the pointer to [add], at address 100. *)
Definition add_world : example_world :=
  {| storage := {[ 1%N := local_erasure add_pointer (address 100) ]};
     heap := ∅;
     events := [] |}.

(** Wrapper 1 holds a [thrower]. *)
Definition thrower_world : example_world :=
  {| storage := {[ 1%N := local_erasure thrower (closure []) ]};
     heap := ∅;
     events := [] |}.

(** Wrapper 1 holds a [two_faced] of 64 bytes in a block of
    [std::allocator]. *)
Definition two_faced_world : example_world :=
  {| storage := {[ 1%N := allocator_erasure std_allocator (two_faced 64) (on_heap 1) ]};
     heap := {[ 1%positive := Some (closure []) ]};
     events := [ev_construct std_allocator 1; ev_allocate std_allocator 1 1] |}.

(** Wrapper 1 holds a [two_faced] of 8 bytes in its storage. *)
Definition small_two_faced_world : example_world :=
  {| storage := {[ 1%N := local_erasure (two_faced 8) (closure []) ]};
     heap := ∅;
     events := [] |}.

(** Wrapper 1 holds the closure [eight] in a block of the allocator [al]. *)
Definition big_world (al : allocator) : example_world :=
  {| storage := {[ 1%N := allocator_erasure al big_closure (on_heap 1) ]};
     heap := {[ 1%positive := Some eight ]};
     events := [ev_construct al 1; ev_allocate al 1 1] |}.

(** The same, and wrapper 2 is Empty. *)
Definition big_and_null_world : example_world :=
  set_storage <[ 2%N := null_erasure ]> (big_world std_allocator).

Definition int_int_int : signature := SIG "int" int_int no_quals.

Definition int_int_int_const : signature := SIG "int" int_int const_quals.


(** Wrapper 1 holds a [counter] that has counted to 5. *)
Definition counter_world : example_world :=
  {| storage := {[ 1%N := local_erasure counter (closure [5%Z]) ]};
     heap := ∅;
     events := [] |}.

(** Wrapper 1 holds the pointer to [add], wrapper 2 the [counter]. *)
Definition pair_world : example_world :=
  {| storage := {[ 1%N := local_erasure add_pointer (address 100);
                   2%N := local_erasure counter (closure [5%Z]) ]};
     heap := ∅;
     events := [] |}.

(** [big_world std_allocator] after wrapper 2 was copied from wrapper 1. *)
Definition big_copy_world : example_world :=
  {| storage := {[ 1%N := allocator_erasure std_allocator big_closure (on_heap 1);
                   2%N := allocator_erasure std_allocator big_closure (on_heap 2) ]};
     heap := {[ 1%positive := Some eight; 2%positive := Some eight ]};
     events := [ev_construct std_allocator 2; ev_allocate std_allocator 1 2;
                ev_construct std_allocator 1; ev_allocate std_allocator 1 1] |}.

(** Wrapper 1 is Empty after an assignment whose construct step threw. *)
Definition after_throw_world : example_world :=
  {| storage := {[ 1%N := null_erasure ]};
     heap := {[ 1%positive := None ]};
     events := [ev_allocate std_allocator 1 1] |}.


(** ** Properties of the engine *)

Section properties.

Context {value args result : Type} {inst : instantiation}.

Implicit Types (w : world value args result) (e : erasure value args result).
Implicit Types (T U : payload_type value args result) (v : value) (a : args).
Implicit Types (this o : N) (s : signature) (want : type_info).

(** Unfolds the monad down to matches on outcomes. *)
Ltac run :=
  repeat (unfold noexcept, noexcept_if, try_catch, bind, ret, throw, undefined,
            modify, gets, erasure_cast, placement_new, end_lifetime in *;
          cbn beta iota in *).

(** *** The table of an erasure *)

Lemma table_destructor e : destructor (table e) = erasure_special_destroy.
Proof. by destruct e. Qed.

Lemma table_move_constructor e : move_constructor (table e) = erasure_special_move.
Proof. by destruct e. Qed.

Lemma table_copy_constructor e : copy_constructor (table e) = Some erasure_special_copy.
Proof. by destruct e. Qed.

Lemma table_target_type_void e : target_type (table e) = typeid_void <-> e = null_erasure.
Proof. destruct e; cbn; split; intros; done. Qed.

(** *** Queries *)

Lemma wrapper_target_type_eq w this e :
  storage w !! this = Some e ->
  wrapper_target_type this w = Returns (target_type (table e)) w.
Proof. intros H. unfold wrapper_target_type. run. by rewrite H. Qed.

Lemma operator_bool_eq w this e :
  storage w !! this = Some e ->
  operator_bool this w = Returns (bool_decide (target_type (table e) <> typeid_void)) w.
Proof. intros H. unfold operator_bool, wrapper_target_type. run. by rewrite H. Qed.

Lemma operator_bool_Empty w this :
  Empty w this -> operator_bool this w = Returns false w.
Proof. intros H. by rewrite (operator_bool_eq _ _ _ H). Qed.

Lemma target_eq w this e want :
  storage w !! this = Some e ->
  target want this w =
    if bool_decide (want <> target_type (table e)) then Returns nullptr w
    else noexcept (target_access (table e) this) w.
Proof.
  intros H. unfold target, wrapper_target_type. run. rewrite H. cbn.
  case_bool_decide; [done|]. by rewrite H.
Qed.

(** C10: for an Empty wrapper the target type is [typeid (void)], and
    [target< want >()] is null for every [want], [void] included: the
    [null_erasure]'s [target_access] returns [nullptr]. *)
Theorem C10_empty_target_null w this :
  Empty w this ->
  wrapper_target_type this w = Returns typeid_void w
  /\ target typeid_void this w = Returns nullptr w
  /\ forall want, target want this w = Returns nullptr w.
Proof.
  intros H. split; [by rewrite (wrapper_target_type_eq _ _ _ H)|].
  assert (forall want, target want this w = Returns nullptr w) as Hall.
  { intros want. rewrite (target_eq _ _ _ _ H). by case_bool_decide. }
  split; [apply Hall | exact Hall].
Qed.

(** C4: a wrapper holding a payload [v] of type [T] answers [target< T >()]
    with a non-null pointer to [v], and [target< U >()] with null for every
    [U] whose [typeid] differs from that of [T]. *)
Theorem C4_target_round_trip w this T v :
  holds w this T v ->
  (exists p, target (typeid T) this w = Returns p w
             /\ p <> nullptr /\ dereference p w = Some v)
  /\ forall want, want <> typeid T -> target want this w = Returns nullptr w.
Proof.
  unfold holds. intros H.
  destruct (storage w !! this) as [e|] eqn:He; [|done].
  split.
  - rewrite (target_eq _ _ _ _ He).
    destruct e as [|T' v'|T' v'|al T' [|c|l]]; try done; destruct H as [-> H]; subst; cbn.
    + rewrite bool_decide_eq_false_2 by (intros K; by apply K).
      exists (in_storage this). unfold local_target_access. run. rewrite He. cbn.
      by rewrite He.
    + rewrite bool_decide_eq_false_2 by (intros K; by apply K).
      exists (in_storage this). unfold ptm_target_access. run. rewrite He. cbn.
      by rewrite He.
    + rewrite bool_decide_eq_false_2 by (intros K; by apply K).
      exists (on_heap l). unfold allocator_target_access. run. rewrite He. cbn.
      by rewrite H.
  - intros want Hne. rewrite (target_eq _ _ _ _ He).
    destruct e as [|T' v'|T' v'|al T' [|c|l]]; try done; destruct H as [-> H]; cbn;
      by rewrite bool_decide_eq_true_2.
Qed.

(** *** Call operators *)

Lemma wrapper_dispatch_lookup (sig : list signature) n unsafe i s :
  sig !! i = Some s ->
  wrapper_dispatch n sig unsafe !! i = Some (wrapper_case s (n + i)).
Proof.
  revert n unsafe i. induction sig as [|s0 more IH]; intros n unsafe i H; [done|].
  destruct i as [|i]; cbn in *.
  - injection H as ->. by rewrite Nat.add_0_r.
  - rewrite (IH _ _ _ H). do 2 f_equal. lia.
Qed.

Lemma call_operators_lookup i s :
  sigs !! i = Some s -> call_operators !! i = Some (wrapper_case s i).
Proof. intros H. unfold call_operators. by rewrite (wrapper_dispatch_lookup _ _ _ _ _ H). Qed.

Lemma wrapper_dispatch_lookup_inv (sig : list signature) n unsafe i s k :
  wrapper_dispatch n sig unsafe !! i = Some (wrapper_case s k) ->
  sig !! i = Some s /\ k = n + i.
Proof.
  revert n unsafe i. induction sig as [|s0 more IH]; intros n unsafe i; cbn.
  - intros H. apply list_elem_of_lookup_2, elem_of_app in H as [H|H].
    + by apply list_elem_of_fmap in H as (t & [=] & _).
    + by apply list_elem_of_singleton in H.
  - destruct i as [|i]; cbn.
    + intros [= -> ->]. split; [done|lia].
    + intros H. apply IH in H as [H ->]. split; [done|lia].
Qed.

Lemma call_operators_wrapper_case s k :
  wrapper_case s k ∈ call_operators -> sigs !! k = Some s.
Proof.
  intros H. apply list_elem_of_lookup in H as [i H].
  by apply wrapper_dispatch_lookup_inv in H as [H ->].
Qed.

Lemma unsafe_of_UNPACK q : unsafe_of q = Some UNPACK <-> q = no_quals.
Proof. destruct q as [[] [] []]; vm_compute; split; intros; done. Qed.

Lemma wrapper_dispatch_unsafe (sig : list signature) n unsafe r p :
  (r, p) ∈ unsafe
  \/ (exists s, s ∈ sig /\ sig_quals s = no_quals /\ sig_ret s = r /\ sig_params s = p) ->
  const_unsafe_case r p ∈ wrapper_dispatch n sig unsafe.
Proof.
  revert n unsafe. induction sig as [|s0 more IH]; intros n unsafe H; cbn.
  - destruct H as [H|(s & Hs & _)]; [|by apply elem_of_nil in Hs].
    apply elem_of_app. left.
    by apply (list_elem_of_fmap_2 (fun t => const_unsafe_case t.1 t.2) _ (r, p)).
  - apply list_elem_of_further. apply IH.
    destruct H as [H|(s & Hs & Hq & Hr & Hp)].
    + left. destruct (unsafe_of (sig_quals s0)) as [[|]|]; [|done..].
      apply elem_of_app. by left.
    + apply elem_of_cons in Hs as [->|Hs].
      * left. rewrite (proj2 (unsafe_of_UNPACK _) Hq). apply elem_of_app. right.
        rewrite Hr, Hp. apply list_elem_of_here.
      * right. by exists s.
Qed.

Lemma wrapper_dispatch_unsafe_inv (sig : list signature) n unsafe r p :
  const_unsafe_case r p ∈ wrapper_dispatch n sig unsafe ->
  (r, p) ∈ unsafe
  \/ (exists s, s ∈ sig /\ sig_quals s = no_quals /\ sig_ret s = r /\ sig_params s = p).
Proof.
  revert n unsafe. induction sig as [|s0 more IH]; intros n unsafe; cbn.
  - intros H. apply elem_of_app in H as [H|H].
    + apply list_elem_of_fmap in H as ([r' p'] & [= -> ->] & H). by left.
    + by apply list_elem_of_singleton in H.
  - intros H. apply elem_of_cons in H as [H|H]; [done|].
    apply IH in H as [H|(s & Hs & Hq & Ht)].
    + destruct (unsafe_of (sig_quals s0)) as [[|]|] eqn:Hu; [|by left..].
      apply elem_of_app in H as [H|H]; [by left|].
      apply list_elem_of_singleton in H as [= -> ->]. right. exists s0.
      split; [apply list_elem_of_here|]. split; [by apply unsafe_of_UNPACK|done].
    + right. exists s. split; [by apply list_elem_of_further|done].
Qed.

Lemma call_operators_const_unsafe_case r p :
  const_unsafe_case r p ∈ call_operators
  <-> exists s, s ∈ sigs /\ sig_quals s = no_quals /\ sig_ret s = r /\ sig_params s = p.
Proof.
  split.
  - intros H. apply wrapper_dispatch_unsafe_inv in H as [H|H]; [|done].
    by apply elem_of_nil in H.
  - intros H. apply wrapper_dispatch_unsafe. by right.
Qed.

(** The primary template is the root of the chain: its deleted operator
    comes last, behind the operators of all the signatures. *)
Lemma wrapper_dispatch_base_case (sig : list signature) n unsafe k :
  wrapper_dispatch n sig unsafe !! k = Some base_case ->
  length sig <= k /\ S k = length (wrapper_dispatch n sig unsafe).
Proof.
  revert n unsafe k. induction sig as [|s0 more IH]; intros n unsafe k; cbn.
  - intros H. split; [lia|]. rewrite length_app, length_fmap. cbn.
    destruct (decide (k < length unsafe)) as [Hk|Hk].
    + rewrite lookup_app_l in H by (by rewrite length_fmap).
      rewrite list_lookup_fmap in H. by destruct (unsafe !! k).
    + rewrite lookup_app_r in H by (rewrite length_fmap; lia).
      rewrite length_fmap in H.
      destruct (k - length unsafe) as [|j] eqn:Hj; [lia|done].
  - destruct k as [|k]; cbn; [done|].
    intros H. apply IH in H as [H1 H2]. split; lia.
Qed.

Lemma wrapper_dispatch_last (sig : list signature) n unsafe :
  last (wrapper_dispatch n sig unsafe) = Some base_case.
Proof.
  revert n unsafe. induction sig as [|s0 more IH]; intros n unsafe; cbn.
  - by rewrite last_snoc.
  - specialize (IH (S n) (match unsafe_of (sig_quals s0) with
                          | Some UNPACK => unsafe ++ [(sig_ret s0, sig_params s0)]
                          | _ => unsafe
                          end)).
    destruct (wrapper_dispatch _ more _); [done|]. by rewrite last_cons, IH.
Qed.

(** *** Name lookup and overload resolution *)

Lemma lookup_set_subseteq (l : list call_operator) op : op ∈ lookup_set l -> op ∈ l.
Proof.
  induction l as [|x l IH]; cbn; [done|].
  intros H. apply elem_of_cons in H as [->|H]; [apply list_elem_of_here|].
  apply list_elem_of_filter in H as [_ H]. apply list_elem_of_further. by apply IH.
Qed.

(** An operator is found unless a more derived class hides it. *)
Lemma elem_of_lookup_set (l : list call_operator) op :
  op ∈ lookup_set l
  <-> exists k, l !! k = Some op
        /\ forall j op', j < k -> l !! j = Some op' -> ~ same_member op' op.
Proof.
  induction l as [|x l IH]; cbn.
  - split; [by intros H%elem_of_nil | by intros (k & H & _)].
  - rewrite elem_of_cons, list_elem_of_filter, IH. split.
    + intros [->|[Hx (k & Hk & Hj)]].
      * exists 0. split; [done|]. intros j op' Hlt. lia.
      * exists (S k). split; [done|]. intros [|j] op' Hlt; cbn.
        -- by intros [= <-].
        -- apply Hj. lia.
    + intros ([|k] & Hk & Hj); cbn in Hk.
      * left. by injection Hk.
      * right. split.
        -- apply (Hj 0); [lia|done].
        -- exists k. split; [done|]. intros j op' Hlt Ho'. apply (Hj (S j)); [lia|done].
Qed.

Lemma lookup_set_only_member (l : list call_operator) op :
  op ∈ l -> (forall op', op' ∈ l -> same_member op' op -> op' = op) -> op ∈ lookup_set l.
Proof.
  induction l as [|x l IH]; cbn; [done|].
  intros Ho Hall. destruct (decide (op = x)) as [->|Hne]; [apply list_elem_of_here|].
  apply list_elem_of_further, list_elem_of_filter. split.
  - intros Hs. apply Hne. symmetry. apply Hall; [apply list_elem_of_here|done].
  - apply IH.
    + by apply elem_of_cons in Ho as [?|?].
    + intros op' Ho'. apply Hall. by apply list_elem_of_further.
Qed.

Lemma elem_of_candidates path params op :
  op ∈ candidates path params
  <-> op ∈ overload_set /\ operator_params op = params
      /\ viable path (operator_quals op) = true.
Proof. unfold candidates. rewrite list_elem_of_filter. tauto. Qed.


Lemma best_viable_elem_of path (cands : list call_operator) op :
  best_viable path cands = Some op -> op ∈ cands.
Proof. intros H. apply find_some in H as [H _]. by apply list_elem_of_In. Qed.

(** The operator selected is one of a declared signature, with the
    parameter types of the call, or a [const_unsafe_case]. *)
Lemma resolve_Some_inv path params op :
  resolve path params = Some op ->
  operator_params op = params
  /\ ((exists s i, sigs !! i = Some s /\ op = wrapper_case s i)
      \/ exists r, op = const_unsafe_case r params).
Proof.
  unfold resolve. destruct (best_viable _ _) as [x|] eqn:Hb; [|done].
  apply best_viable_elem_of, elem_of_candidates in Hb as (Hin & Hp & _).
  apply lookup_set_subseteq in Hin.
  destruct x as [s k|r p|]; [| |done]; intros [= <-]; (split; [done|]).
  - left. exists s, k. split; [by apply call_operators_wrapper_case|done].
  - right. exists r. cbn in Hp. by rewrite Hp.
Qed.

Lemma invoke_Some_inv path params this a (m : M (world value args result) result) :
  invoke path params this a = Some m ->
  exists i s, sigs !! i = Some s /\ sig_params s = params
    /\ m = call_wrapper_case i this a.
Proof.
  unfold invoke.
  destruct (resolve path params) as [op|] eqn:Hr; [|done].
  apply resolve_Some_inv in Hr as (Hp & [(s & i & Hs & ->)|(r & ->)]).
  - intros [= <-]. by exists i, s.
  - destruct (resolve non_const_lvalue params) as [op|] eqn:Hr'; [|done].
    apply resolve_Some_inv in Hr' as (Hp' & [(s & i & Hs & ->)|(r' & ->)]); [|done].
    intros [= <-]. by exists i, s.
Qed.

Lemma dispatchers_lookup e i s :
  sigs !! i = Some s ->
  dispatchers (table e) !! i =
    Some (match e with
          | null_erasure => null_dispatch s
          | local_erasure _ _ => local_dispatch s
          | ptm_erasure _ _ => ptm_dispatch s
          | allocator_erasure _ _ _ => allocator_dispatch s
          end).
Proof. intros H. destruct e; cbn; by rewrite list_lookup_fmap, H. Qed.

(** Calling through the table entry of signature [i] calls the payload, on
    the object expression of the erasure's dispatcher. *)
Lemma call_wrapper_case_holds w this T v i s a :
  holds w this T v -> sigs !! i = Some s ->
  call_wrapper_case i this a w =
    outcome_of (snd (call T (called_as w this s) v a))
               (with_target this (fst (call T (called_as w this s) v a)) w).
Proof.
  unfold holds, with_target, called_as. intros H Hs.
  destruct (storage w !! this) as [e|] eqn:He; [|done].
  unfold call_wrapper_case. run. rewrite He. cbn.
  rewrite (dispatchers_lookup _ _ _ Hs).
  destruct e as [|T' v'|T' v'|al T' [|c|l]]; try done; destruct H as [-> H]; subst;
    cbn [target_expression].
  - unfold local_dispatch, call_through, assign_through. run. rewrite He. cbn.
    rewrite He. by destruct (call T _ v a) as [v1 [r|ex]].
  - unfold ptm_dispatch, call_through, assign_through. run. rewrite He. cbn.
    rewrite He. by destruct (call T _ v a) as [v1 [r|ex]].
  - unfold allocator_dispatch, call_through, assign_through. run. rewrite He. cbn.
    rewrite H. cbn. by destruct (call T _ v a) as [v1 [r|ex]].
Qed.


(** An Empty wrapper throws [std::bad_function_call] from every entry. *)
Lemma call_wrapper_case_Empty w this i s a :
  Empty w this -> sigs !! i = Some s ->
  call_wrapper_case i this a w = Throws bad_function_call w.
Proof.
  intros H Hs. unfold call_wrapper_case. run. rewrite H. cbn.
  by rewrite list_lookup_fmap, Hs.
Qed.

(** *** Construction *)

Lemma init_nullptr_eq w this :
  init_nullptr this w = Returns tt (set_storage <[this := null_erasure]> w).
Proof. done. Qed.

Lemma set_storage_lookup w this e :
  storage (set_storage <[this := e]> w) !! this = Some e.
Proof. cbn. by rewrite lookup_insert_eq. Qed.

Lemma init_tag_null w this T cat v :
  category T <> class_type -> is_nonnull T v = false ->
  init_tag this T cat v w = Returns tt (set_storage <[this := null_erasure]> w).
Proof.
  intros Hc Hn. unfold init_tag, init_pointer, init_ptm.
  destruct (category T); [done| |]; by rewrite Hn.
Qed.

(** A constructor that returns leaves the world as it was and yields its
    argument; one that throws leaves the world as it was. *)
Lemma run_constructor_Returns (c : constructor value) v w x w' :
  run_constructor c v w = Returns x w' -> x = v /\ w' = w.
Proof.
  destruct c as [|f]; cbn.
  - by intros [= <- <-].
  - destruct (f v); cbn; [done|]. by intros [= <- <-].
Qed.

Lemma run_constructor_Throws (c : constructor value) v w ex w' :
  run_constructor c v w = Throws ex w' -> w' = w.
Proof.
  destruct c as [|f]; cbn; [done|].
  destruct (f v); cbn; [|done]. by intros [= _ <-].
Qed.

Lemma construct_from_Returns T cat v w x w' :
  construct_from T cat v w = Returns x w' -> x = v /\ w' = w.
Proof. destruct cat; apply run_constructor_Returns. Qed.

Lemma construct_from_Throws T cat v w ex w' :
  construct_from T cat v w = Throws ex w' -> w' = w.
Proof. destruct cat; apply run_constructor_Throws. Qed.

Lemma allocator_erasure_ctor_holds w w' al T cat v e this :
  allocator_erasure_ctor al T cat v w = Returns e w' ->
  holds (set_storage <[this := e]> w') this T v.
Proof.
  unfold allocator_erasure_ctor, allocate, construct, holds. run.
  destruct (arena_full al w); [done|]. cbn.
  rewrite lookup_insert_eq.
  destruct (construct_from T cat v _) as [x w1| | |] eqn:Hc; try done.
  apply construct_from_Returns in Hc as [-> ->].
  intros [= <- <-]. cbn. by rewrite !lookup_insert_eq.
Qed.

Lemma init_tag_holds w w' this T cat v :
  init_tag this T cat v w = Returns tt w' -> storable T v -> holds w' this T v.
Proof.
  unfold init_tag, storable. intros H Hs.
  destruct (category T) eqn:Hc.
  - destruct (is_small T).
    + revert H. unfold init_local, local_erasure_ctor, holds. run.
      destruct (construct_from T cat v w) as [x w1| | |] eqn:Hctor; try done.
      apply construct_from_Returns in Hctor as [-> ->].
      intros [= <-]. cbn. by rewrite lookup_insert_eq.
    + revert H. unfold init_allocated.
      destruct (_ <=? _)%N; [|done]. run.
      destruct (allocator_erasure_ctor std_allocator T cat v w) as [e w1| | |] eqn:Hctor;
        try done.
      intros [= <-]. by eapply allocator_erasure_ctor_holds.
  - destruct Hs as [|Hs]; [done|]. revert H. unfold init_pointer. rewrite Hs.
    unfold holds. run. intros [= <-]. cbn. by rewrite lookup_insert_eq.
  - destruct Hs as [|Hs]; [done|]. revert H. unfold init_ptm. rewrite Hs.
    unfold holds. run. intros [= <-]. cbn. by rewrite lookup_insert_eq.
Qed.

Lemma wrapper_base_holds w w' this T cat v :
  wrapper_base (from_callable cat T v) this w = Returns tt w' ->
  storable T v -> holds w' this T v.
Proof.
  unfold wrapper_base. cbn. unfold noexcept_if.
  destruct (init_tag this T cat v w) as [[] w1| | |] eqn:H; try done.
  intros [= <-]. by eapply init_tag_holds.
Qed.

Lemma wrapper_base_allocator_arg_holds w w' this al T cat v :
  wrapper_base_allocator_arg al cat T v this w = Returns tt w' ->
  storable T v -> holds w' this T v.
Proof.
  unfold wrapper_base_allocator_arg, init_allocator_arg, init_allocator_tag.
  destruct (is_small T); [apply init_tag_holds|].
  unfold init_allocated. destruct (_ <=? _)%N; [|done]. run.
  destruct (allocator_erasure_ctor al T cat v w) as [e w1| | |] eqn:Hctor; try done.
  intros [= <-] _. by eapply allocator_erasure_ctor_holds.
Qed.

(** An inline payload is called as the signature declares; a payload
    behind an allocator is called as a non-const lvalue. *)
Lemma called_as_local w this T v s :
  storage w !! this = Some (local_erasure T v) ->
  called_as w this s = call_as (add_reference (sig_quals s)) s.
Proof. intros H. unfold called_as. by rewrite H. Qed.

Lemma called_as_allocator w this al T p s :
  storage w !! this = Some (allocator_erasure al T p) ->
  called_as w this s = call_as non_const_lvalue s.
Proof. intros H. unfold called_as. by rewrite H. Qed.

(** Whatever the qualifiers of the signature, the table entry of an
    [allocator_erasure] calls the payload as a non-const lvalue; that of a
    [local_erasure] calls it with the qualifiers of the signature. *)
Lemma allocator_payload_called_non_const w this al T l v i s a :
  storage w !! this = Some (allocator_erasure al T (on_heap l)) ->
  heap w !! l = Some (Some v) ->
  sigs !! i = Some s ->
  call_wrapper_case i this a w
  = outcome_of (snd (call T (call_as non_const_lvalue s) v a))
      (write_heap l (fst (call T (call_as non_const_lvalue s) v a)) w).
Proof.
  intros He Hl Hs.
  assert (holds w this T v) as Hh by (unfold holds; by rewrite He).
  rewrite (call_wrapper_case_holds _ _ _ _ _ _ a Hh Hs).
  rewrite (called_as_allocator _ _ _ _ _ _ He). unfold with_target. by rewrite He.
Qed.

Lemma local_payload_called_as_declared w this T v i s a :
  storage w !! this = Some (local_erasure T v) ->
  sigs !! i = Some s ->
  call_wrapper_case i this a w
  = outcome_of (snd (call T (call_as (add_reference (sig_quals s)) s) v a))
      (set_storage
         <[this := local_erasure T
                     (fst (call T (call_as (add_reference (sig_quals s)) s) v a))]> w).
Proof.
  intros He Hs.
  assert (holds w this T v) as Hh by (unfold holds; by rewrite He).
  rewrite (call_wrapper_case_holds _ _ _ _ _ _ a Hh Hs).
  rewrite (called_as_local _ _ _ _ _ He). unfold with_target. by rewrite He.
Qed.

Lemma called_as_with_target w this v s :
  called_as (with_target this v w) this s = called_as w this s.
Proof.
  unfold called_as, with_target.
  destruct (storage w !! this) as [[|T v0|T v0|al T [|c|l]]|] eqn:He; cbn;
    rewrite ?lookup_insert_eq, ?He; done.
Qed.

(** *** Destruction *)

(** The world after [destroy()] on a wrapper holding [e]. *)
Lemma destroy_eq w this e :
  storage w !! this = Some e -> intact w e ->
  destroy this w =
    Returns tt
      (set_storage (delete this)
         (match e with
          | allocator_erasure al _ (on_heap l) => set_heap <[l := None]> (ev_destroy al l) w
          | _ => w
          end)).
Proof.
  intros He Hi. unfold destroy. run. rewrite He. cbn.
  rewrite table_destructor. unfold erasure_special_destroy. run. rewrite He. cbn.
  destruct e as [|T v|T v|al T [|c|l]]; try done.
  cbn in *. destruct Hi as [v ->]. done.
Qed.

Lemma destroy_valid w this :
  valid w this ->
  exists w1, destroy this w = Returns tt w1 /\ forall o, o <> this -> storage w1 !! o = storage w !! o.
Proof.
  intros (e & He & Hi). rewrite (destroy_eq _ _ _ He Hi). eexists; split; [done|].
  intros o Ho. cbn. rewrite lookup_delete_ne by done. by destruct e as [| | |? ? [| |]].
Qed.

(** C6: constructing or assigning from a null pointer or a null pointer to
    member leaves the wrapper Empty, whatever the size of the payload type. *)
Theorem C6_null_pointer_is_empty w this T cat v :
  category T = pointer_type \/ category T = member_pointer_type ->
  is_nonnull T v = false ->
  (exists w', wrapper_base (from_callable cat T v) this w = Returns tt w' /\ Empty w' this)
  /\ (valid w this ->
      exists w', operator_assign (from_callable cat T v) this w = Returns tt w'
                 /\ Empty w' this).
Proof.
  intros Hc Hn.
  assert (category T <> class_type) as Hc' by (destruct Hc as [-> | ->]; done).
  split.
  - eexists. unfold wrapper_base. cbn. unfold noexcept_if.
    rewrite (init_tag_null _ _ _ _ _ Hc' Hn). split; [done|]. apply set_storage_lookup.
  - intros Hv. destruct (destroy_valid _ _ Hv) as (w1 & Hd & _).
    eexists. unfold operator_assign, operator_assign_template. cbn [init]. run.
    rewrite Hd. rewrite (init_tag_null _ _ _ _ _ Hc' Hn).
    split; [done|]. apply set_storage_lookup.
Qed.

(** With an allocator argument a null pointer takes the same overload. *)
Lemma allocator_arg_null_pointer w this al T cat v :
  category T <> class_type -> is_small T = true -> is_nonnull T v = false ->
  exists w', wrapper_base_allocator_arg al cat T v this w = Returns tt w' /\ Empty w' this.
Proof.
  intros Hc Hs Hn. eexists.
  unfold wrapper_base_allocator_arg, init_allocator_arg, init_allocator_tag.
  rewrite Hs, (init_tag_null _ _ _ _ _ Hc Hn). split; [done|]. apply set_storage_lookup.
Qed.


(** *** Assignment *)

(** Whatever the source, an exception that leaves [operator =] leaves the
    wrapper Empty. *)
Lemma operator_assign_template_Throws_Empty nothrow init_s w w' this ex :
  operator_assign_template nothrow init_s this w = Throws ex w' -> Empty w' this.
Proof.
  unfold operator_assign_template. run.
  destruct (destroy this w) as [[] w1|ex1 w1| |] eqn:Hd.
  - destruct (init_s this w1) as [[] w2|ex2 w2| |] eqn:Hi; try done.
    + cbn. destruct nothrow; [done|].
      intros [= _ <-]. apply set_storage_lookup.
  - cbn. destruct nothrow; [done|].
    intros [= _ <-]. apply set_storage_lookup.
  - done.
  - done.
Qed.

(** Every source but a const lvalue wrapper goes through the assignment
    operator template. *)
Lemma operator_assign_eq (src : source value args result) this :
  (forall o, src <> from_const_wrapper o) ->
  operator_assign src this
  = operator_assign_template (operator_assign_noexcept src) (init src) this.
Proof. intros H. destruct src as [| | |o]; [done..|]. by destruct (H o). Qed.

Lemma operator_assign_Throws_Empty w w' this src ex :
  operator_assign src this w = Throws ex w' -> Empty w' this.
Proof.
  destruct src as [|cat o|cat T v|o];
    [apply operator_assign_template_Throws_Empty..|done].
Qed.

(** When the exception specification of [operator =] is [noexcept( false )],
    an exception thrown by [init] reaches the caller and the wrapper is
    Empty. *)
Lemma operator_assign_propagates w w1 w2 this src ex :
  operator_assign_noexcept src = false ->
  destroy this w = Returns tt w1 ->
  init src this w1 = Throws ex w2 ->
  operator_assign src this w = Throws ex (set_storage <[this := null_erasure]> w2).
Proof.
  intros Hn Hd Hi. rewrite operator_assign_eq by (by intros o ->).
  unfold operator_assign_template. run. by rewrite Hd, Hi, Hn.
Qed.

(** When it is [noexcept( true )], the same exception ends the program. *)
Lemma operator_assign_terminates w w1 w2 this src ex :
  (forall o, src <> from_const_wrapper o) ->
  operator_assign_noexcept src = true ->
  destroy this w = Returns tt w1 ->
  init src this w1 = Throws ex w2 ->
  operator_assign src this w = Terminate.
Proof.
  intros Hsrc Hn Hd Hi. rewrite operator_assign_eq by done.
  unfold operator_assign_template. run. by rewrite Hd, Hi, Hn.
Qed.

(** Assigning an lvalue of a small type whose copy constructor throws. *)
Lemma operator_assign_lvalue_copy_throws w this T v f ex :
  valid w this ->
  category T = class_type ->
  is_small T = true ->
  is_small_reference T = true ->
  copy_ctor T = ctor_throwing f -> f v = Some ex ->
  operator_assign (from_callable lvalue T v) this w = Terminate.
Proof.
  intros Hv Hc Hs Hr Hf Hex. destruct (destroy_valid _ _ Hv) as (w1 & Hd & _).
  eapply operator_assign_terminates; [done| |exact Hd|].
  - cbn. by rewrite Hr.
  - cbn. unfold init_tag. rewrite Hc, Hs. unfold init_local, local_erasure_ctor. run.
    cbn. rewrite Hf. cbn. by rewrite Hex.
Qed.

(** *** Move construction *)

(** The move constructor entry of an [allocator_erasure] hands the pointer
    over and leaves [nullptr] in the source. *)
Lemma erasure_special_move_allocator w this o al T p :
  storage w !! o = Some (allocator_erasure al T p) ->
  erasure_special_move o this w =
    Returns tt
      (set_storage (fun m => <[this := allocator_erasure al T p]>
                               (<[o := allocator_erasure al T nullptr]> m)) w).
Proof. intros He. unfold erasure_special_move. run. by rewrite He. Qed.

(** [init( wrapper_base && o )] from a wrapper holding an Empty, local or
    pointer-to-member erasure: [this] receives the erasure, [o] is Empty,
    the heap is untouched. *)
Lemma init_move_inline w this o e :
  this <> o ->
  storage w !! o = Some e ->
  match e with
  | allocator_erasure _ _ _ => False
  | local_erasure T _ => move_ctor T = ctor_noexcept
  | _ => True
  end ->
  exists w', init_move this o w = Returns tt w'
    /\ storage w' !! this = Some e /\ Empty w' o /\ heap w' = heap w.
Proof.
  intros Hne He Hk. unfold init_move. run. rewrite He. cbn.
  rewrite table_move_constructor. unfold erasure_special_move. run. rewrite He. cbn.
  assert (forall w1, storage w1 !! o = Some e -> storage w1 !! this = Some e ->
            heap w1 = heap w ->
            exists w', operator_assign_nullptr o w1 = Returns tt w'
              /\ storage w' !! this = Some e /\ Empty w' o /\ heap w' = heap w) as Hreset.
  { intros w1 Ho Ht Hh.
    unfold operator_assign_nullptr, operator_assign_template. run.
    rewrite (destroy_eq w1 o e Ho) by (by destruct e).
    cbn. eexists. split; [by destruct is_small_nullptr_t|].
    unfold Empty. destruct e as [| | |? ? [| |]]; cbn;
      rewrite ?lookup_insert_eq, ?lookup_insert_ne, ?lookup_delete_ne by done; done. }
  assert (forall w1, storage w1 !! o = Some e -> storage w1 !! this = Some e ->
            heap w1 = heap w ->
            exists w', noexcept (operator_assign_nullptr o) w1 = Returns tt w'
              /\ storage w' !! this = Some e /\ Empty w' o /\ heap w' = heap w) as Hfin.
  { intros w1 Ho Ht Hh. destruct (Hreset w1 Ho Ht Hh) as (w' & Hw & ?).
    exists w'. unfold noexcept, noexcept_if. by rewrite Hw. }
  destruct e as [|T v|T v|al T p]; cbn in *; try done; rewrite ?Hk; cbn;
    apply Hfin; cbn;
    first [done | by rewrite lookup_insert_eq
          | by rewrite lookup_insert_ne, lookup_insert_eq].
Qed.

(** From a wrapper holding an [allocator_erasure]: [o = nullptr] destroys
    the moved-from erasure, whose destructor goes through the nulled
    pointer. *)
Lemma init_move_allocator w this o al T p :
  this <> o ->
  storage w !! o = Some (allocator_erasure al T p) ->
  init_move this o w = Undefined.
Proof.
  intros Hne He. unfold init_move. run. rewrite He. cbn.
  rewrite (erasure_special_move_allocator _ _ _ _ _ _ He).
  unfold operator_assign_nullptr, operator_assign_template, destroy. run. cbn.
  rewrite lookup_insert_ne, lookup_insert_eq by done. cbn.
  unfold erasure_special_destroy. run. cbn.
  by rewrite lookup_insert_ne, lookup_insert_eq by done.
Qed.

(** *** The allocator protocol *)

(** Construction draws one block and constructs the payload in it. *)
Lemma allocator_erasure_ctor_Returns w w' al T cat v e :
  allocator_erasure_ctor al T cat v w = Returns e w' ->
  exists l, (l ∉ allocated w)
    /\ e = allocator_erasure al T (on_heap l)
    /\ heap w' = <[l := Some v]> (heap w)
    /\ events w' = ev_construct al l :: ev_allocate al 1 l :: events w.
Proof.
  unfold allocator_erasure_ctor, allocate, construct. run.
  destruct (arena_full al w); [done|]. cbn. rewrite lookup_insert_eq.
  destruct (construct_from T cat v _) as [x w1| | |] eqn:Hc; try done.
  apply construct_from_Returns in Hc as [-> ->].
  intros [= <- <-]. exists (fresh (dom (heap w))). split; [apply is_fresh|].
  cbn. by rewrite insert_insert_eq.
Qed.

(** A construct step that throws leaves the block it was given allocated:
    no call returns it. *)
Lemma allocator_erasure_ctor_Throws w al T cat v :
  arena_full al w = false ->
  (exists ex, construct_from T cat v w = Throws ex w) ->
  exists ex l, (l ∉ allocated w)
    /\ allocator_erasure_ctor al T cat v w
       = Throws ex (set_heap <[l := None]> (ev_allocate al 1 l) w).
Proof.
  intros Hfull [ex Hex]. exists ex, (fresh (dom (heap w))). split; [apply is_fresh|].
  unfold allocator_erasure_ctor, allocate, construct. run. rewrite Hfull. cbn.
  rewrite lookup_insert_eq.
  destruct cat; cbn in *.
  - destruct (copy_ctor T) as [|f]; cbn in *; try done.
    destruct (f v); cbn in *; [|done]. by injection Hex as ->.
  - destruct (move_ctor T) as [|f]; cbn in *; try done.
    destruct (f v); cbn in *; [|done]. by injection Hex as ->.
Qed.

(** Destruction destroys the payload and returns no block. *)
Lemma destroy_allocator w this al T l v :
  storage w !! this = Some (allocator_erasure al T (on_heap l)) ->
  heap w !! l = Some (Some v) ->
  exists w', wrapper_base_dtor this w = Returns tt w'
    /\ events w' = ev_destroy al l :: events w
    /\ heap w' = <[l := None]> (heap w)
    /\ allocated w' = allocated w.
Proof.
  intros He Hl. unfold wrapper_base_dtor. run.
  rewrite (destroy_eq _ _ _ He) by (by exists v).
  eexists. split; [done|]. cbn. split; [done|]. split; [done|].
  unfold allocated. cbn. apply dom_insert_lookup_L. by rewrite Hl.
Qed.

(** *** The copy constructor entry *)


(** *** The deprecated const fallback *)

(** What a call finds when the signature [s], number [i], is declared with
    no qualifier and is the only declared signature of its parameter
    list. *)
Section const_unsafe.

Context (i : nat) (s : signature).
Hypothesis Hs : sigs !! i = Some s.
Hypothesis Hq : sig_quals s = no_quals.
Hypothesis Honly : forall j s', sigs !! j = Some s' -> sig_params s' = sig_params s -> j = i.









End const_unsafe.


(** *** Empty wrappers *)

(** C2, the payload's own exceptions set apart: [bool( c )] is false
    exactly when the target type is
    [typeid (void)], exactly when [c] is Empty; an Empty wrapper throws
    [std::bad_function_call] to the caller from every call it accepts; and a
    call that throws [std::bad_function_call] shows the wrapper Empty when
    the call that the erasure makes on its payload does not throw it. *)
Theorem C2_empty_observations w this e :
  storage w !! this = Some e ->
  intact w e ->
  (operator_bool this w = Returns false w
   <-> wrapper_target_type this w = Returns typeid_void w)
  /\ (operator_bool this w = Returns false w <-> Empty w this)
  /\ (Empty w this ->
      forall path params a m, invoke path params this a = Some m ->
        m w = Throws bad_function_call w)
  /\ (forall path params a m w',
        invoke path params this a = Some m ->
        m w = Throws bad_function_call w' ->
        (forall T v s, holds w this T v -> s ∈ sigs -> sig_params s = params ->
           snd (call T (called_as w this s) v a) <> inr bad_function_call) ->
        Empty w this).
Proof.
  intros He Hi.
  rewrite (operator_bool_eq _ _ _ He), (wrapper_target_type_eq _ _ _ He).
  unfold Empty. rewrite He.
  split; [|split; [|split]].
  - split.
    + intros [= H]. apply bool_decide_eq_false in H. f_equal.
      by destruct (decide (target_type (table e) = typeid_void)).
    + intros [= ->]. done.
  - split.
    + intros [= H]. apply bool_decide_eq_false in H. f_equal.
      apply table_target_type_void.
      by destruct (decide (target_type (table e) = typeid_void)).
    + intros [= ->]. done.
  - intros [= ->] path params a m Hm.
    apply invoke_Some_inv in Hm as (i & s & Hs & _ & ->).
    by apply (call_wrapper_case_Empty _ _ _ s).
  - intros path params a m w' Hm Hthrow Hpayload.
    apply invoke_Some_inv in Hm as (i & s & Hs & Hp & ->).
    assert (forall T v, holds w this T v -> False) as Hno.
    { intros T v Hh.
      rewrite (call_wrapper_case_holds _ _ _ _ _ _ _ Hh Hs) in Hthrow.
      specialize (Hpayload T v s Hh (list_elem_of_lookup_2 _ _ _ Hs) Hp).
      destruct (snd (call T _ v a)) as [r|ex]; cbn in Hthrow; [done|].
      by injection Hthrow as -> _. }
    destruct e as [|T v|T v|al T [|c|l]]; cbn in Hi; try done; exfalso.
    + apply (Hno T v). unfold holds. by rewrite He.
    + apply (Hno T v). unfold holds. by rewrite He.
    + destruct Hi as [v Hl]. apply (Hno T v). unfold holds. by rewrite He.
Qed.

End properties.


(** ** The properties on the examples *)

Section examples.

#[local] Existing Instance function_int_int_int.

(** [function< int( int, int ) > c = add; c( 2, 3 )] returns 5. *)
Example add_2_3 :
  wrapper_base (from_callable lvalue add_pointer (address 100)) 1%N empty_world
  = Returns tt add_world
  /\ call_wrapper_case 0 1%N [2; 3]%Z add_world = Returns 5%Z add_world.
Proof. split; vm_compute; reflexivity. Qed.

(** A default-constructed wrapper is Empty and throws when called. *)
Example default_constructed :
  wrapper_base from_nullptr 1%N empty_world = Returns tt null_world
  /\ operator_bool 1%N null_world = Returns false null_world
  /\ call_wrapper_case 0 1%N [2; 3]%Z null_world = Throws bad_function_call null_world.
Proof. repeat split; vm_compute; reflexivity. Qed.

(** A closure of 64 bytes is not small: it goes behind [std::allocator],
    or behind the allocator given. *)
Example big_closure_allocated :
  is_small big_closure = false
  /\ wrapper_base (from_callable rvalue big_closure eight) 1%N empty_world
     = Returns tt (big_world std_allocator)
  /\ wrapper_base_allocator_arg (arena_of 1) rvalue big_closure eight 1%N empty_world
     = Returns tt (big_world (arena_of 1))
  /\ call_wrapper_case 0 1%N [2; 3]%Z (big_world (arena_of 1))
     = Returns 41%Z (big_world (arena_of 1)).
Proof. repeat split; vm_compute; reflexivity. Qed.

(** C1, where the code departs from it: [function< int( int, int ) const >]
    is given a [two_faced] of 64 bytes, which goes behind [std::allocator].
    Called directly as the signature declares, on a const object, the
    payload returns 6.  The call on the wrapper, through a const lvalue,
    selects the operator of the signature and its table entry, and the
    entry calls [* target], a non-const lvalue: the wrapper returns 7.  The
    same functor with 8 bytes of state is stored inline, where the entry
    calls the target with the qualifiers of the signature, and the wrapper
    returns 6. *)
Theorem C1_heap_payload_called_non_const :
  snd (call (two_faced 64) (call_as (add_reference const_quals) int_int_int_const)
         (closure []) [2; 3]%Z) = inl 6%Z
  /\ wrapper_base (inst := function_const)
       (from_callable rvalue (two_faced 64) (closure [])) 1%N empty_world
     = Returns tt two_faced_world
  /\ invoke (inst := function_const) (value := example_value) (result := Z)
       const_lvalue int_int 1%N [2; 3]%Z
     = Some (call_wrapper_case (inst := function_const) 0 1%N [2; 3]%Z)
  /\ call_wrapper_case (inst := function_const) 0 1%N [2; 3]%Z two_faced_world
     = Returns 7%Z two_faced_world
  /\ wrapper_base (inst := function_const)
       (from_callable rvalue (two_faced 8) (closure [])) 1%N empty_world
     = Returns tt small_two_faced_world
  /\ call_wrapper_case (inst := function_const) 0 1%N [2; 3]%Z small_two_faced_world
     = Returns 6%Z small_two_faced_world.
Proof. repeat split; vm_compute; reflexivity. Qed.

Lemma C10_witness :
  wrapper_target_type 1%N null_world = Returns typeid_void null_world
  /\ target typeid_void 1%N null_world = Returns nullptr null_world
  /\ forall want, target want 1%N null_world = Returns nullptr null_world.
Proof. apply (C10_empty_target_null null_world 1%N). reflexivity. Defined.

Lemma C4_witness :
  (exists p, target (typeid add_pointer) 1%N add_world = Returns p add_world
             /\ p <> nullptr /\ dereference p add_world = Some (address 100))
  /\ forall want, want <> typeid add_pointer ->
       target want 1%N add_world = Returns nullptr add_world.
Proof.
  apply (C4_target_round_trip add_world 1%N add_pointer (address 100)).
  vm_compute. split; reflexivity.
Defined.

Lemma C6_witness :
  (exists w', wrapper_base (from_callable rvalue add_pointer (address 0)) 1%N add_world
              = Returns tt w' /\ Empty w' 1%N)
  /\ (valid add_world 1%N ->
      exists w', operator_assign (from_callable rvalue add_pointer (address 0)) 1%N add_world
                 = Returns tt w' /\ Empty w' 1%N).
Proof.
  apply (C6_null_pointer_is_empty add_world 1%N add_pointer rvalue (address 0)).
  - left. reflexivity.
  - reflexivity.
Defined.

(** The assignment of the witness for C6 does return. *)
Example assign_null_pointer :
  operator_assign (from_callable rvalue add_pointer (address 0)) 1%N add_world
  = Returns tt null_world.
Proof. vm_compute. reflexivity. Qed.



Lemma C2_witness :
  (operator_bool 1%N null_world = Returns false null_world
   <-> wrapper_target_type 1%N null_world = Returns typeid_void null_world)
  /\ (operator_bool 1%N null_world = Returns false null_world <-> Empty null_world 1%N)
  /\ (Empty null_world 1%N ->
      forall path params a m, invoke path params 1%N a = Some m ->
        m null_world = Throws bad_function_call null_world)
  /\ (forall path params a m w',
        invoke path params 1%N a = Some m ->
        m null_world = Throws bad_function_call w' ->
        (forall T v s, holds null_world 1%N T v -> s ∈ sigs -> sig_params s = params ->
           snd (call T (called_as null_world 1%N s) v a) <> inr bad_function_call) ->
        Empty null_world 1%N).
Proof.
  apply (C2_empty_observations null_world 1%N null_erasure).
  - reflexivity.
  - exact I.
Defined.

(** C2 does not hold of every wrapper: one holding a [thrower] is not
    Empty ([bool( c )] is true, the target type is not [typeid (void)]), yet
    every call it accepts throws [std::bad_function_call]. *)
Lemma C2_counterexample :
  operator_bool 1%N thrower_world = Returns true thrower_world
  /\ wrapper_target_type 1%N thrower_world = Returns (typeid thrower) thrower_world
  /\ typeid thrower <> typeid_void
  /\ (exists m : M example_world Z, invoke non_const_lvalue int_int 1%N [2; 3]%Z = Some m)
  /\ forall path params a m, invoke path params 1%N a = Some m ->
       m thrower_world = Throws bad_function_call thrower_world.
Proof.
  split; [vm_compute; reflexivity|]. split; [vm_compute; reflexivity|].
  split; [done|]. split; [by eexists|].
  intros path params a m Hm. apply invoke_Some_inv in Hm as (i & s & Hs & _ & ->).
  assert (holds thrower_world 1%N thrower (closure [])) as Hh
    by (vm_compute; split; reflexivity).
  rewrite (call_wrapper_case_holds _ _ _ _ _ _ a Hh Hs). vm_compute. reflexivity.
Qed.

(** C3, where the code departs from it: wrapper 1 is assigned an lvalue
    [counter], whose copy constructor throws.  [init] throws out of the try
    block and the handler would rethrow, but the operator is
    [noexcept( true )] for this source: the program terminates and the
    caller sees no exception. *)
Theorem C3_lvalue_assignment_terminates :
  operator_assign_noexcept (from_callable lvalue counter (closure [0%Z])) = true
  /\ (exists w1 w2,
        destroy 1%N add_world = Returns tt w1
        /\ init (from_callable lvalue counter (closure [0%Z])) 1%N w1
           = Throws (user_exception 7) w2)
  /\ operator_assign (from_callable lvalue counter (closure [0%Z])) 1%N add_world
     = Terminate.
Proof.
  split; [reflexivity|]. split.
  - eexists _, _. split; vm_compute; reflexivity.
  - apply (operator_assign_lvalue_copy_throws _ _ _ _ (fun _ => Some (user_exception 7))
             (user_exception 7)); try reflexivity.
    exists (local_erasure add_pointer (address 100)). by split.
Qed.

(** With a source for which the operator is [noexcept( false )] the
    exception reaches the caller and the wrapper is Empty. *)
Example rvalue_assignment_propagates :
  exists w', operator_assign (from_callable rvalue fragile_closure eight) 1%N add_world
             = Throws (user_exception 9) w'
    /\ Empty w' 1%N
    /\ operator_bool 1%N w' = Returns false w'.
Proof.
  eexists. split; [vm_compute; reflexivity|]. split; vm_compute; reflexivity.
Qed.

(** C5, where the code departs from it: wrapper 1 holds a closure behind
    an allocator.  The move constructor entry hands the pointer to wrapper 2
    and nulls it in wrapper 1, then [o = nullptr] destroys wrapper 1's
    erasure through the null pointer: move construction and move assignment
    are undefined. *)
Theorem C5_move_from_allocated_undefined :
  wrapper_base (from_callable rvalue big_closure eight) 1%N empty_world
  = Returns tt (big_world std_allocator)
  /\ erasure_special_move 1%N 2%N (big_world std_allocator)
  = Returns tt
      (set_storage
         (fun m => <[2%N := allocator_erasure std_allocator big_closure (on_heap 1)]>
                     (<[1%N := allocator_erasure std_allocator big_closure nullptr]> m))
         (big_world std_allocator))
  /\ wrapper_base (from_wrapper rvalue 1%N) 2%N (big_world std_allocator) = Undefined
  /\ operator_assign (from_wrapper rvalue 1%N) 2%N big_and_null_world = Undefined.
Proof.
  split; [vm_compute; reflexivity|].
  split; [by apply erasure_special_move_allocator|].
  split.
  - unfold wrapper_base, noexcept_if. cbn [init].
    by rewrite (init_move_allocator _ _ _ std_allocator big_closure (on_heap 1)).
  - vm_compute. reflexivity.
Qed.

(** A wrapper holding a local erasure moves as C5 says. *)
Example move_from_local :
  exists w', wrapper_base (from_wrapper rvalue 1%N) 2%N add_world = Returns tt w'
    /\ storage w' !! 2%N = Some (local_erasure add_pointer (address 100))
    /\ Empty w' 1%N.
Proof. eexists. repeat split; vm_compute; reflexivity. Qed.

(** C7, where the code departs from it: a 64-byte closure is erased with
    an allocator.  Construction allocates one block and constructs in it;
    the destructor destroys the payload and the block stays allocated; a
    construct step that throws leaves its block allocated too.  No
    [deallocate] is called. *)
Theorem C7_block_never_deallocated :
  wrapper_base_allocator_arg (arena_of 1) rvalue big_closure eight 1%N empty_world
  = Returns tt (big_world (arena_of 1))
  /\ (exists w', wrapper_base_dtor 1%N (big_world (arena_of 1)) = Returns tt w'
     /\ events w' = [ev_destroy (arena_of 1) 1; ev_construct (arena_of 1) 1;
                     ev_allocate (arena_of 1) 1 1]
     /\ heap w' !! 1%positive = Some None
     /\ allocated w' = {[ 1%positive ]})
  /\ (exists w', wrapper_base_allocator_arg (arena_of 1) rvalue fragile_closure eight
                   1%N empty_world
                 = Throws (user_exception 9) w'
     /\ events w' = [ev_allocate (arena_of 1) 1 1]
     /\ heap w' !! 1%positive = Some None
     /\ allocated w' = {[ 1%positive ]}).
Proof.
  split; [vm_compute; reflexivity|].
  split.
  - destruct (destroy_allocator (big_world (arena_of 1)) 1%N (arena_of 1) big_closure
                1%positive eight) as (w' & Hd & Hev & Hh & Ha); [done..|].
    exists w'. split; [done|]. split; [done|]. rewrite Hh, Ha. split; [done|].
    unfold allocated. cbn. by rewrite dom_singleton_L.
  - eexists. split; [vm_compute; reflexivity|]. split; [done|]. split; [done|].
    vm_compute. reflexivity.
Qed.

(** Beside a const signature of the same parameters the fallback is hidden,
    whatever the return type of that signature: through a const access path
    the call selects the const signature. *)
Example const_signature_hides_fallback :
  resolve (inst := function_both) const_lvalue int_int
  = Some (wrapper_case (SIG "int" int_int const_quals) 1)
  /\ (const_unsafe_case "int" int_int ∉ overload_set (inst := function_both))
  /\ resolve (inst := function_int_long) const_lvalue int_int
     = Some (wrapper_case (SIG "long" int_int const_quals) 1)
  /\ (const_unsafe_case "int" int_int ∉ overload_set (inst := function_int_long))
  /\ resolve (inst := function_int_long) non_const_lvalue int_int
     = Some (wrapper_case (SIG "int" int_int no_quals) 0).
Proof.
  repeat split; try (vm_compute; reflexivity);
    by apply (bool_decide_unpack _); vm_compute.
Qed.

(** [function< int() const >]: the deleted operator of the primary template
    has the parameter list of the signature, and for a non-const wrapper it
    is the better match; only through a const access path is the call
    well-formed. *)
Example nullary_const_selects_deleted :
  overload_set (inst := function_nullary_const)
  = [wrapper_case (SIG "int" [] const_quals) 0; base_case]
  /\ best_viable non_const_lvalue (candidates (inst := function_nullary_const)
                                     non_const_lvalue [])
     = Some base_case
  /\ resolve (inst := function_nullary_const) non_const_lvalue [] = None
  /\ resolve (inst := function_nullary_const) const_lvalue []
     = Some (wrapper_case (SIG "int" [] const_quals) 0).
Proof. repeat split; vm_compute; reflexivity. Qed.

End examples.


(** ** Further properties: qualifier cases, storage policy, copies, moves,
       assignment, calls *)

Section interface.

Context {value args result : Type} {inst : instantiation}.

Implicit Types (w : world value args result) (e : erasure value args result).
Implicit Types (T U : payload_type value args result) (v : value) (a : args).
Implicit Types (this o tmp : N) (s : signature) (want : type_info).

Ltac run :=
  repeat (unfold noexcept, noexcept_if, try_catch, bind, ret, throw, undefined,
            modify, gets, erasure_cast, placement_new, end_lifetime in *;
          cbn beta iota in *).

(** *** The qualifier cases *)

(** X1: [DISPATCH_ALL] generates each of the twelve combinations of const,
    volatile and reference qualifier exactly once, so every qualified
    signature has its case, and it passes [UNPACK] to the unqualified case
    and to no other. *)
Theorem DISPATCH_ALL_cases q :
  NoDup (fst <$> DISPATCH_ALL)
  /\ length DISPATCH_ALL = 12
  /\ q ∈ (fst <$> DISPATCH_ALL)
  /\ (unsafe_of q = Some UNPACK <-> q = no_quals)
  /\ (q <> no_quals -> unsafe_of q = Some IGNORE).
Proof.
  split; [by apply (bool_decide_unpack _); vm_compute|].
  split; [done|].
  split; [destruct q as [[] [] []]; by apply (bool_decide_unpack _); vm_compute|].
  split; [apply unsafe_of_UNPACK|].
  destruct q as [[] [] []]; vm_compute; intros; done.
Qed.

(** *** The call operators *)

Lemma wrapper_dispatch_length (sig : list signature) n unsafe :
  length (wrapper_dispatch n sig unsafe)
  = length sig + length unsafe
    + length (filter (fun s => sig_quals s = no_quals) sig) + 1.
Proof.
  revert n unsafe. induction sig as [|s0 more IH]; intros n unsafe.
  - cbn. rewrite length_app, length_fmap. cbn. lia.
  - rewrite filter_cons. cbn [wrapper_dispatch length]. rewrite IH.
    destruct (unsafe_of (sig_quals s0)) as [[|]|] eqn:Hu.
    + apply unsafe_of_UNPACK in Hu. rewrite decide_True by done.
      rewrite length_app. cbn. lia.
    + rewrite decide_False; [lia|]. intros Hq. apply unsafe_of_UNPACK in Hq. congruence.
    + rewrite decide_False; [lia|]. intros Hq. apply unsafe_of_UNPACK in Hq. congruence.
Qed.

(** X2: the classes of the wrapper declare one call operator per declared
    signature, the operator of signature [i] forwarding to table entry [i];
    one deprecated const operator for each unqualified signature and for no
    other; and last, at the root, the deleted nullary operator.  Name lookup
    finds only declared operators, and it finds the deleted one exactly when
    no unqualified signature without parameters is declared. *)
Theorem call_operators_shape :
  length call_operators
  = length sigs + length (filter (fun s => sig_quals s = no_quals) sigs) + 1
  /\ (forall i s n, call_operators !! i = Some (wrapper_case s n)
                    <-> sigs !! i = Some s /\ n = i)
  /\ (forall r p, const_unsafe_case r p ∈ call_operators
                  <-> exists s, s ∈ sigs /\ sig_quals s = no_quals
                                /\ sig_ret s = r /\ sig_params s = p)
  /\ last call_operators = Some base_case
  /\ (forall op, op ∈ overload_set -> op ∈ call_operators)
  /\ (base_case ∈ overload_set
      <-> ~ exists s, s ∈ sigs /\ sig_quals s = no_quals /\ sig_params s = []).
Proof.
  split; [|split; [|split; [|split; [|split]]]].
  - unfold call_operators. rewrite wrapper_dispatch_length. cbn. lia.
  - intros i s n. split.
    + intros H. by apply wrapper_dispatch_lookup_inv in H.
    + intros [H ->]. by apply call_operators_lookup.
  - apply call_operators_const_unsafe_case.
  - apply wrapper_dispatch_last.
  - intros op. apply lookup_set_subseteq.
  - split.
    + intros Hin (s & [i Hs]%list_elem_of_lookup & Hq & Hp).
      apply elem_of_lookup_set in Hin as (k & Hk & Hhide).
      apply wrapper_dispatch_base_case in Hk as [Hk _].
      apply (Hhide i (wrapper_case s i)).
      * apply lookup_lt_Some in Hs. lia.
      * by apply call_operators_lookup.
      * split; cbn; congruence.
    + intros Hno. apply lookup_set_only_member.
      * apply last_Some_elem_of, wrapper_dispatch_last.
      * intros [s k|r p|] Hin [Hp Hq]; cbn in Hp, Hq; [|done..].
        destruct Hno. exists s. split; [|done].
        apply call_operators_wrapper_case in Hin. by eapply list_elem_of_lookup_2.
Qed.

(** *** Where a payload is stored *)

Lemma init_tag_small w w' this T cat v :
  category T = class_type -> is_small T = true ->
  init_tag this T cat v w = Returns tt w' ->
  w' = set_storage <[this := local_erasure T v]> w.
Proof.
  intros Hc Hs. unfold init_tag. rewrite Hc, Hs.
  unfold init_local, local_erasure_ctor. run.
  destruct (construct_from T cat v w) as [x w1| | |] eqn:Hctor; try done.
  apply construct_from_Returns in Hctor as [-> ->]. by intros [= <-].
Qed.

Lemma allocator_erasure_ctor_world w w' al T cat v e :
  allocator_erasure_ctor al T cat v w = Returns e w' ->
  e = allocator_erasure al T (on_heap (fresh (dom (heap w))))
  /\ w' = set_heap <[fresh (dom (heap w)) := Some v]>
            (ev_construct al (fresh (dom (heap w))))
            (set_heap <[fresh (dom (heap w)) := None]>
               (ev_allocate al 1 (fresh (dom (heap w)))) w).
Proof.
  unfold allocator_erasure_ctor, allocate, construct. run.
  destruct (arena_full al w); [done|]. cbn. rewrite lookup_insert_eq.
  destruct (construct_from T cat v _) as [x w1| | |] eqn:Hc; try done.
  apply construct_from_Returns in Hc as [-> ->]. by intros [= <- <-].
Qed.

Lemma init_allocated_Returns w w' this al T cat v :
  init_allocated this al T cat v w = Returns tt w' ->
  exists l, (l ∉ allocated w)
    /\ storage w' = <[this := allocator_erasure al T (on_heap l)]> (storage w)
    /\ heap w' = <[l := Some v]> (heap w)
    /\ events w' = ev_construct al l :: ev_allocate al 1 l :: events w.
Proof.
  unfold init_allocated. destruct (_ <=? _)%N; [|done]. run.
  destruct (allocator_erasure_ctor al T cat v w) as [e w1| | |] eqn:Hctor; try done.
  intros [= <-]. apply allocator_erasure_ctor_world in Hctor as [-> ->].
  exists (fresh (dom (heap w))). split; [apply is_fresh|]. cbn.
  by rewrite insert_insert_eq.
Qed.

(** X3: a class-type payload that is small (it fits the storage and is
    nothrow move constructible) is erased inside the wrapper's storage,
    with or without an allocator argument: the heap is untouched and the
    allocator is never called. *)
Theorem small_payload_stored_inline w w' this T cat v :
  category T = class_type ->
  is_small T = true ->
  (wrapper_base (from_callable cat T v) this w = Returns tt w'
   \/ exists al, wrapper_base_allocator_arg al cat T v this w = Returns tt w') ->
  w' = set_storage <[this := local_erasure T v]> w
  /\ heap w' = heap w /\ events w' = events w.
Proof.
  intros Hc Hs H.
  assert (w' = set_storage <[this := local_erasure T v]> w) as ->; [|done].
  destruct H as [H|[al H]].
  - revert H. unfold wrapper_base. cbn. unfold noexcept_if.
    destruct (init_tag this T cat v w) as [[] w1| | |] eqn:Hi; try done.
    intros [= <-]. by eapply init_tag_small.
  - revert H.
    unfold wrapper_base_allocator_arg, init_allocator_arg, init_allocator_tag.
    rewrite Hs. by apply init_tag_small.
Qed.

(** X4: a class-type payload that is not small is erased behind an
    allocator, [std::allocator] unless one is given: construction allocates
    one block of one element that was not allocated before, constructs the
    payload there through that allocator, and makes no other allocator
    call. *)
Theorem large_payload_allocated w w' this al T cat v :
  category T = class_type ->
  is_small T = false ->
  ((wrapper_base (from_callable cat T v) this w = Returns tt w' /\ al = std_allocator)
   \/ wrapper_base_allocator_arg al cat T v this w = Returns tt w') ->
  exists l, (l ∉ allocated w)
    /\ storage w' = <[this := allocator_erasure al T (on_heap l)]> (storage w)
    /\ heap w' = <[l := Some v]> (heap w)
    /\ events w' = ev_construct al l :: ev_allocate al 1 l :: events w.
Proof.
  intros Hc Hs [[H ->]|H].
  - revert H. unfold wrapper_base. cbn. unfold noexcept_if, init_tag.
    rewrite Hc, Hs.
    destruct (init_allocated this std_allocator T cat v w) as [[] w1| | |] eqn:Hi;
      try done.
    intros [= <-]. by apply init_allocated_Returns in Hi.
  - revert H.
    unfold wrapper_base_allocator_arg, init_allocator_arg, init_allocator_tag.
    rewrite Hs. apply init_allocated_Returns.
Qed.

(** X5: when the allocator cannot provide a block, construction of a
    payload that is not small throws [std::bad_alloc] and leaves the world
    as it was: nothing is stored, nothing is logged. *)
Theorem allocation_failure_propagates w this al T cat v :
  category T = class_type ->
  is_small T = false ->
  (sizeof_allocator_erasure al <= sizeof_storage)%N ->
  arena_full al w = true ->
  wrapper_base_allocator_arg al cat T v this w = Throws bad_alloc w.
Proof.
  intros Hc Hs Hsz Hfull.
  unfold wrapper_base_allocator_arg, init_allocator_arg, init_allocator_tag.
  rewrite Hs. unfold init_allocated.
  apply N.leb_le in Hsz. rewrite Hsz.
  unfold allocator_erasure_ctor, allocate. run. by rewrite Hfull.
Qed.

(** X6: a wrapper that holds a payload of type [T] converts to true and
    reports [typeid (T)], never [typeid (void)], as its target type. *)
Theorem holding_wrapper_is_not_empty w this T v :
  holds w this T v ->
  operator_bool this w = Returns true w
  /\ wrapper_target_type this w = Returns (typeid T) w
  /\ typeid T <> typeid_void.
Proof.
  unfold holds. intros H.
  destruct (storage w !! this) as [e|] eqn:He; [|done].
  assert (target_type (table e) = typeid T) as Ht.
  { destruct e as [|T' v'|T' v'|al T' [|c|l]]; try done; by destruct H as [-> _]. }
  rewrite (operator_bool_eq _ _ _ He), (wrapper_target_type_eq _ _ _ He), Ht.
  done.
Qed.

(** X7: comparison with [nullptr] by [==], on either side, is true exactly
    when the wrapper is Empty, and does not change the world. *)
Theorem nullptr_comparisons w this e :
  storage w !! this = Some e ->
  exists b, eq_nullptr this w = Returns b w
    /\ nullptr_eq this w = Returns b w
    /\ (b = true <-> Empty w this).
Proof.
  intros He. exists (negb (bool_decide (target_type (table e) <> typeid_void))).
  unfold eq_nullptr, nullptr_eq. run.
  rewrite (operator_bool_eq _ _ _ He).
  split; [done|]. split; [done|].
  unfold Empty. rewrite He. rewrite negb_true_iff, bool_decide_eq_false.
  split.
  - intros H. f_equal. apply table_target_type_void.
    by destruct (decide (target_type (table e) = typeid_void)).
  - intros [= ->]. intros H. by apply H.
Qed.

(** *** Copies *)

Lemma init_copy_eq w this o e :
  storage w !! o = Some e ->
  init_copy this o w = (e' <- copy_construct e ;; placement_new this e') w.
Proof.
  intros He. unfold init_copy. run. rewrite He. cbn.
  rewrite table_copy_constructor. unfold erasure_special_copy. run. by rewrite He.
Qed.

(** What copy construction of the erasure [e] does when [e] holds [v]. *)
Lemma copy_construct_holds w o T v e :
  storage w !! o = Some e ->
  holds w o T v ->
  match copy_construct e w with
  | Returns e' w' =>
      storage w' = storage w
      /\ holds w' o T v
      /\ forall this, this <> o ->
           holds (set_storage <[this := e']> w') this T v
           /\ holds (set_storage <[this := e']> w') o T v
           /\ forall v', holds (with_target this v' (set_storage <[this := e']> w')) o T v
  | Throws _ w' => storage w' = storage w /\ holds w' o T v
  | Terminate => True
  | Undefined => True
  end.
Proof.
  unfold holds. intros He H. rewrite He in H.
  destruct e as [|T' v'|T' v'|al T' [|c|l]]; try done; destruct H as [-> H]; subst.
  - cbn [copy_construct]. unfold bind, ret.
    destruct (construct_from T lvalue v w) as [x w1|ex w1| |] eqn:Hc; try done.
    + apply construct_from_Returns in Hc as [-> ->]. rewrite He.
      split; [done|]. split; [done|]. intros this Hne. unfold with_target. cbn.
      rewrite lookup_insert_eq, lookup_insert_ne, He by done.
      split; [done|]. split; [done|]. intros v'. cbn.
      by rewrite lookup_insert_ne, lookup_insert_ne, He by done.
    + apply construct_from_Throws in Hc as ->. by rewrite He.
  - cbn. rewrite He.
    split; [done|]. split; [done|]. intros this Hne. unfold with_target. cbn.
    rewrite lookup_insert_eq, lookup_insert_ne, He by done.
    split; [done|]. split; [done|]. intros v'. cbn.
    by rewrite lookup_insert_ne, lookup_insert_ne, He by done.
  - cbn [copy_construct]. unfold bind, ret, allocate, construct.
    destruct (arena_full al w); [by rewrite He|]. cbn [dereference set_heap heap].
    assert (fresh (dom (heap w)) <> l) as Hfresh.
    { intros Heq. apply (is_fresh (dom (heap w))). rewrite Heq.
      apply elem_of_dom. by rewrite H. }
    rewrite lookup_insert_ne, H by done. cbn [mjoin option_join].
    rewrite lookup_insert_eq. unfold bind, modify.
    destruct (construct_from T lvalue v _) as [x w1|ex w1| |] eqn:Hc; try done.
    + apply construct_from_Returns in Hc as [-> ->]. cbn. rewrite He.
      rewrite !lookup_insert_ne, H by done.
      split; [done|]. split; [done|]. intros this Hne. unfold with_target. cbn.
      rewrite (lookup_insert_eq (storage w)).
      rewrite (lookup_insert_ne (storage w)), He by done.
      rewrite lookup_insert_eq.
      rewrite !lookup_insert_ne, H by done.
      split; [done|]. split; [done|]. intros v'. cbn.
      rewrite (lookup_insert_ne (storage w)), He by done.
      by rewrite !lookup_insert_ne, H by done.
    + apply construct_from_Throws in Hc as ->. cbn. rewrite He.
      by rewrite lookup_insert_ne, H by done.
Qed.

(** X8: copy construction of a [wrapper_base] from a non-const lvalue
    [wrapper_base] that holds [v], the case that reaches
    [init( wrapper_base const & )], leaves both wrappers holding [v], the
    source's storage as it was, and the two payloads independent: whatever
    state a call leaves the copy's target in, the source still holds [v]. *)
Theorem copy_is_independent w w' this o T v :
  this <> o ->
  holds w o T v ->
  wrapper_base (from_wrapper lvalue o) this w = Returns tt w' ->
  holds w' this T v
  /\ holds w' o T v
  /\ storage w' !! o = storage w !! o
  /\ forall v', holds (with_target this v' w') o T v.
Proof.
  intros Hne Hh. unfold wrapper_base. cbn. unfold noexcept_if.
  assert (exists e, storage w !! o = Some e) as [e He].
  { unfold holds in Hh. destruct (storage w !! o); [by eexists|done]. }
  rewrite (init_copy_eq _ _ _ _ He). run.
  pose proof (copy_construct_holds w o T v e He Hh) as Hcopy.
  destruct (copy_construct e w) as [e' w1|ex w1| |]; try done.
  intros [= <-]. destruct Hcopy as (Hst & _ & Hall).
  destruct (Hall this Hne) as (H1 & H2 & H3).
  split; [done|]. split; [done|]. split; [|done].
  cbn. by rewrite lookup_insert_ne, Hst by done.
Qed.

(** X9: when copy construction of a [wrapper_base] from a non-const lvalue
    [wrapper_base] throws (the payload's copy constructor, or the
    allocator), the exception reaches the caller, the source still holds
    its payload and no wrapper's storage has changed. *)
Theorem failed_copy_leaves_source w w' this o T v ex :
  holds w o T v ->
  wrapper_base (from_wrapper lvalue o) this w = Throws ex w' ->
  holds w' o T v /\ storage w' = storage w.
Proof.
  intros Hh. unfold wrapper_base. cbn. unfold noexcept_if.
  assert (exists e, storage w !! o = Some e) as [e He].
  { unfold holds in Hh. destruct (storage w !! o); [by eexists|done]. }
  rewrite (init_copy_eq _ _ _ _ He). run.
  pose proof (copy_construct_holds w o T v e He Hh) as Hcopy.
  destruct (copy_construct e w) as [e' w1|ex1 w1| |]; try done.
  intros [= _ <-]. by destruct Hcopy.
Qed.

(** From a const lvalue the implicit copy members copy the storage: the
    new wrapper has the erasure of the source, pointer included. *)
Lemma implicit_copy_eq w this o e :
  storage w !! o = Some e ->
  wrapper_base (from_const_wrapper o) this w
  = Returns tt (set_storage <[this := e]> w)
  /\ operator_assign (from_const_wrapper o) this w
     = Returns tt (set_storage <[this := e]> w).
Proof.
  intros He. unfold wrapper_base, operator_assign, implicit_copy, modify, set_storage.
  by rewrite He.
Qed.

(** *** Moves *)

Lemma inline_erasure_intact w e : inline_erasure e -> intact w e.
Proof. by destruct e. Qed.

Lemma set_storage_ext (f g : gmap N (erasure value args result) -> _) w :
  f (storage w) = g (storage w) -> set_storage f w = set_storage g w.
Proof. unfold set_storage. by intros ->. Qed.

(** [c = nullptr] on a wrapper holding an inline erasure. *)
Lemma operator_assign_nullptr_inline w o e :
  storage w !! o = Some e -> inline_erasure e ->
  operator_assign_nullptr o w = Returns tt (set_storage <[o := null_erasure]> w).
Proof.
  intros He Hi. unfold operator_assign_nullptr, operator_assign_template. run.
  rewrite (destroy_eq w o e He (inline_erasure_intact _ _ Hi)).
  replace (match e with
           | allocator_erasure al _ (on_heap l) => set_heap <[l:=None]> (ev_destroy al l) w
           | _ => w
           end) with w by (by destruct e).
  cbn. f_equal. unfold set_storage. cbn. by rewrite insert_delete_eq.
Qed.

Lemma move_construct_inline w e :
  inline_erasure e -> move_construct e w = Returns (e, e) w.
Proof.
  destruct e as [|T v|T v|al T p]; cbn; try done.
  intros ->. done.
Qed.

(** The world after [init( wrapper_base && o )] from an inline erasure. *)
Lemma init_move_inline_world w this o e :
  this <> o -> storage w !! o = Some e -> inline_erasure e ->
  init_move this o w
  = Returns tt (set_storage (fun m => <[o := null_erasure]> (<[this := e]> m)) w).
Proof.
  intros Hne He Hi. unfold init_move. run. rewrite He. cbn.
  rewrite table_move_constructor. unfold erasure_special_move. run. rewrite He. cbn.
  rewrite (move_construct_inline _ _ Hi). cbn.
  rewrite (operator_assign_nullptr_inline _ o e); [|by cbn; rewrite lookup_insert_ne, lookup_insert_eq|done].
  f_equal. unfold set_storage. cbn. f_equal.
  rewrite (insert_insert_ne _ this o) by done. by rewrite insert_insert_eq.
Qed.

(** X10: constructing from an Empty wrapper, by copy or by move, gives an
    Empty wrapper, leaves the source Empty and touches neither the heap nor
    the allocator log. *)
Theorem construct_from_empty w this o cat :
  this <> o ->
  Empty w o ->
  exists w', wrapper_base (from_wrapper cat o) this w = Returns tt w'
    /\ Empty w' this /\ Empty w' o
    /\ heap w' = heap w /\ events w' = events w.
Proof.
  intros Hne He. unfold Empty in *. destruct cat.
  - unfold wrapper_base. cbn. unfold noexcept_if.
    rewrite (init_copy_eq _ _ _ _ He). cbn. eexists. split; [done|]. cbn.
    by rewrite lookup_insert_eq, lookup_insert_ne by done.
  - unfold wrapper_base. cbn. unfold noexcept_if.
    rewrite (init_move_inline_world w this o null_erasure Hne He I).
    eexists. split; [done|]. cbn.
    by rewrite lookup_insert_eq, lookup_insert_ne, lookup_insert_eq by done.
Qed.

(** X11: move construction from a wrapper whose erasure lives in its
    storage (Empty, local, pointer to member) hands the erasure over
    unchanged, leaves the source Empty, leaves every other wrapper, the heap
    and the allocator log as they were, and cannot throw. *)
Theorem move_construct_inline_round_trip w this o e :
  this <> o ->
  storage w !! o = Some e ->
  inline_erasure e ->
  exists w', wrapper_base (from_wrapper rvalue o) this w = Returns tt w'
    /\ storage w' !! this = Some e
    /\ Empty w' o
    /\ (forall c, c <> this -> c <> o -> storage w' !! c = storage w !! c)
    /\ heap w' = heap w /\ events w' = events w.
Proof.
  intros Hne He Hi. unfold wrapper_base. cbn. unfold noexcept_if.
  rewrite (init_move_inline_world w this o e Hne He Hi).
  eexists. split; [done|]. unfold Empty. cbn.
  rewrite lookup_insert_eq, lookup_insert_ne, lookup_insert_eq by done.
  split; [done|]. split; [done|]. split; [|done].
  intros c Hc1 Hc2. by rewrite !lookup_insert_ne by done.
Qed.

(** X12: move assignment to a valid wrapper from a wrapper whose erasure
    lives in its storage destroys the old target (for an old target behind
    an allocator: one [destroy] call on its block, which is left raw; for
    any other: no allocator call and the heap as it was), hands the erasure
    over unchanged and leaves the source Empty. *)
Theorem move_assign_inline_round_trip w this o e0 e :
  this <> o ->
  storage w !! this = Some e0 ->
  intact w e0 ->
  storage w !! o = Some e ->
  inline_erasure e ->
  exists w', operator_assign (from_wrapper rvalue o) this w = Returns tt w'
    /\ storage w' !! this = Some e
    /\ Empty w' o
    /\ (forall c, c <> this -> c <> o -> storage w' !! c = storage w !! c)
    /\ match e0 with
       | allocator_erasure al _ (on_heap l) =>
           heap w' = <[l := None]> (heap w)
           /\ events w' = ev_destroy al l :: events w
       | _ => heap w' = heap w /\ events w' = events w
       end.
Proof.
  intros Hne H0 Hi0 He Hi.
  unfold operator_assign, operator_assign_template. cbn [init]. run.
  rewrite (destroy_eq _ _ _ H0 Hi0).
  set (w1 := set_storage (delete this) _).
  assert (storage w1 !! o = Some e) as He1.
  { unfold w1. cbn. rewrite lookup_delete_ne by done.
    by destruct e0 as [| | |? ? [| |]]. }
  assert (forall c, c <> this -> storage w1 !! c = storage w !! c) as Hother.
  { intros c Hc. unfold w1. cbn. rewrite lookup_delete_ne by done.
    by destruct e0 as [| | |? ? [| |]]. }
  rewrite (init_move_inline_world w1 this o e Hne He1 Hi).
  cbn. eexists. split; [done|]. unfold Empty. cbn [storage set_storage].
  rewrite lookup_insert_eq, lookup_insert_ne, lookup_insert_eq by done.
  split; [done|]. split; [done|]. split.
  - intros c Hc1 Hc2. rewrite !lookup_insert_ne by done. by apply Hother.
  - unfold w1. by destruct e0 as [| | |? ? [| |]].
Qed.

(** *** Swap *)

Lemma bind_Returns {A B} (m : M (world value args result) A)
    (k : A -> M (world value args result) B) w x w' :
  m w = Returns x w' -> bind m k w = k x w'.
Proof. unfold bind. by intros ->. Qed.

Lemma wrapper_base_move_inline_world w this o e :
  this <> o -> storage w !! o = Some e -> inline_erasure e ->
  wrapper_base (from_wrapper rvalue o) this w
  = Returns tt (set_storage (fun m => <[o := null_erasure]> (<[this := e]> m)) w).
Proof.
  intros Hne He Hi. unfold wrapper_base. cbn [init init_noexcept]. unfold noexcept_if.
  by rewrite (init_move_inline_world w this o e Hne He Hi).
Qed.

(** The world after move assignment between wrappers holding inline
    erasures. *)
Lemma operator_assign_move_inline_world w this o e0 e :
  this <> o ->
  storage w !! this = Some e0 -> inline_erasure e0 ->
  storage w !! o = Some e -> inline_erasure e ->
  operator_assign (from_wrapper rvalue o) this w
  = Returns tt (set_storage (fun m => <[o := null_erasure]> (<[this := e]> m)) w).
Proof.
  intros Hne H0 Hi0 He Hi.
  unfold operator_assign, operator_assign_template. cbn [init].
  unfold noexcept_if, try_catch.
  rewrite (bind_Returns _ _ w tt (set_storage (delete this) w)).
  - rewrite (init_move_inline_world _ this o e Hne);
      [|by cbn; rewrite lookup_delete_ne|done].
    f_equal. unfold set_storage. cbn. by rewrite insert_delete_eq.
  - rewrite (destroy_eq w this e0 H0 (inline_erasure_intact _ _ Hi0)).
    by destruct e0.
Qed.

Lemma wrapper_base_dtor_inline_world w this e :
  storage w !! this = Some e -> inline_erasure e ->
  wrapper_base_dtor this w = Returns tt (set_storage (delete this) w).
Proof.
  intros He Hi. unfold wrapper_base_dtor, noexcept, noexcept_if.
  rewrite (destroy_eq w this e He (inline_erasure_intact _ _ Hi)). by destruct e.
Qed.

(** The world after [swap] of two wrappers holding inline erasures, the
    temporary's storage being free before. *)
Lemma swap_inline_world w tmp this other e1 e2 :
  this <> other -> tmp <> this -> tmp <> other ->
  storage w !! tmp = None ->
  storage w !! this = Some e1 -> inline_erasure e1 ->
  storage w !! other = Some e2 -> inline_erasure e2 ->
  swap tmp this other w
  = Returns tt (set_storage (fun m => <[this := e2]> (<[other := e1]> m)) w).
Proof.
  intros Hne Ht1 Ht2 Htmp H1 Hi1 H2 Hi2. unfold swap.
  rewrite (bind_Returns _ _ _ _ _ (wrapper_base_move_inline_world w tmp this e1 Ht1 H1 Hi1)).
  erewrite bind_Returns; cycle 1.
  { apply (operator_assign_move_inline_world _ this other null_erasure e2 Hne).
    - cbn. by rewrite lookup_insert_eq.
    - done.
    - cbn. by rewrite !lookup_insert_ne.
    - done. }
  erewrite bind_Returns; cycle 1.
  { apply (operator_assign_move_inline_world _ other tmp null_erasure e1).
    - done.
    - cbn. by rewrite lookup_insert_eq.
    - done.
    - cbn. rewrite !lookup_insert_ne by done. by rewrite lookup_insert_eq.
    - done. }
  erewrite wrapper_base_dtor_inline_world; cycle 1.
  { cbn. by rewrite lookup_insert_eq. }
  { exact I. }
  f_equal. unfold set_storage. cbn. f_equal.
  apply map_eq. intros c.
  destruct (decide (c = tmp)) as [->|Hc1].
  { rewrite lookup_delete_eq, !lookup_insert_ne by done. done. }
  rewrite lookup_delete_ne, lookup_insert_ne by done.
  destruct (decide (c = other)) as [->|Hc2].
  { by rewrite lookup_insert_eq, lookup_insert_ne, lookup_insert_eq by done. }
  rewrite !(lookup_insert_ne _ other c) by done.
  destruct (decide (c = this)) as [->|Hc3].
  { by rewrite !lookup_insert_eq. }
  by rewrite !lookup_insert_ne by done.
Qed.

(** X13: [swap] of two distinct wrappers whose erasures live in their
    storage exchanges the two erasures and changes nothing else: every other
    wrapper, the heap and the allocator log are as before, and the
    temporary is gone. *)
Theorem swap_exchanges w tmp this other e1 e2 :
  this <> other -> tmp <> this -> tmp <> other ->
  storage w !! tmp = None ->
  storage w !! this = Some e1 -> inline_erasure e1 ->
  storage w !! other = Some e2 -> inline_erasure e2 ->
  exists w', swap tmp this other w = Returns tt w'
    /\ storage w' !! this = Some e2
    /\ storage w' !! other = Some e1
    /\ (forall c, c <> this -> c <> other -> storage w' !! c = storage w !! c)
    /\ heap w' = heap w /\ events w' = events w.
Proof.
  intros Hne Ht1 Ht2 Htmp H1 Hi1 H2 Hi2.
  rewrite (swap_inline_world w tmp this other e1 e2) by done.
  eexists. split; [done|]. cbn.
  rewrite lookup_insert_eq, lookup_insert_ne, lookup_insert_eq by done.
  split; [done|]. split; [done|]. split; [|done].
  intros c Hc1 Hc2. by rewrite !lookup_insert_ne by done.
Qed.

(** X14: swapping the same two wrappers twice gives back the world the
    first swap started from. *)
Theorem swap_twice_restores w tmp this other e1 e2 :
  this <> other -> tmp <> this -> tmp <> other ->
  storage w !! tmp = None ->
  storage w !! this = Some e1 -> inline_erasure e1 ->
  storage w !! other = Some e2 -> inline_erasure e2 ->
  exists w', swap tmp this other w = Returns tt w'
    /\ swap tmp this other w' = Returns tt w.
Proof.
  intros Hne Ht1 Ht2 Htmp H1 Hi1 H2 Hi2.
  rewrite (swap_inline_world w tmp this other e1 e2) by done.
  eexists. split; [done|].
  rewrite (swap_inline_world _ tmp this other e2 e1); try done; cycle 1.
  { cbn. by rewrite !lookup_insert_ne by done. }
  { cbn. by rewrite lookup_insert_eq. }
  { cbn. by rewrite lookup_insert_ne, lookup_insert_eq by done. }
  f_equal. destruct w as [st hp ev]. unfold set_storage. cbn in *. f_equal.
  apply map_eq. intros c.
  destruct (decide (c = this)) as [->|Hc1]; [by rewrite lookup_insert_eq|].
  rewrite lookup_insert_ne by done.
  destruct (decide (c = other)) as [->|Hc2]; [by rewrite lookup_insert_eq|].
  by rewrite !lookup_insert_ne by done.
Qed.

(** *** Assignment *)

(** X15: [c = nullptr] on a valid wrapper returns, leaves it Empty and
    leaves every other wrapper's storage as it was. *)
Theorem assign_nullptr_resets w this :
  valid w this ->
  exists w', operator_assign from_nullptr this w = Returns tt w'
    /\ Empty w' this
    /\ operator_bool this w' = Returns false w'
    /\ forall o, o <> this -> storage w' !! o = storage w !! o.
Proof.
  intros Hv. destruct (destroy_valid _ _ Hv) as (w1 & Hd & Hother).
  unfold operator_assign, operator_assign_template. cbn [init]. run. rewrite Hd. cbn.
  eexists. split; [done|].
  assert (Empty (set_storage <[this := null_erasure]> w1) this) as He
    by apply set_storage_lookup.
  split; [done|]. split; [by apply operator_bool_Empty|].
  intros o Ho. cbn. rewrite lookup_insert_ne by done. by apply Hother.
Qed.

(** X16: an assignment from a callable that returns leaves the wrapper
    holding the new payload, and the table entry of any declared signature
    then returns or throws what the payload's own call does, made on the
    object expression of the erasure: with the qualifiers of the signature
    for a payload in the storage, as a non-const lvalue for one behind an
    allocator. *)
Theorem assign_replaces_payload w w' this T cat v :
  operator_assign (from_callable cat T v) this w = Returns tt w' ->
  storable T v ->
  holds w' this T v
  /\ forall i s a, sigs !! i = Some s ->
       call_wrapper_case i this a w'
       = outcome_of (snd (call T (called_as w' this s) v a))
           (with_target this (fst (call T (called_as w' this s) v a)) w').
Proof.
  intros H Hs.
  assert (holds w' this T v) as Hh.
  { revert H. unfold operator_assign, operator_assign_template. cbn [init]. run.
    destruct (destroy this w) as [[] w1|ex1 w1| |]; cbn;
      try (by intros [=]);
      try (match goal with |- (if ?b then _ else _) = _ -> _ => by destruct b; intros [=] end).
    destruct (init_tag this T cat v w1) as [[] w2|ex2 w2| |] eqn:Hi; cbn;
      try (by intros [=]);
      try (match goal with |- (if ?b then _ else _) = _ -> _ => by destruct b; intros [=] end).
    intros [= <-]. by eapply init_tag_holds. }
  split; [done|]. intros i s a Hsig. by apply call_wrapper_case_holds.
Qed.

(** X17: an exception leaves [operator =] only when its exception
    specification is [noexcept( false )]; it is the exception [init] threw
    after the old target was destroyed, and the wrapper is then Empty and
    converts to false. *)
Theorem assign_exception_is_inits w w' this src ex :
  operator_assign src this w = Throws ex w' ->
  operator_assign_noexcept src = false
  /\ (exists w1 w2, destroy this w = Returns tt w1
        /\ init src this w1 = Throws ex w2
        /\ w' = set_storage <[this := null_erasure]> w2)
  /\ Empty w' this
  /\ operator_bool this w' = Returns false w'.
Proof.
  intros H.
  assert (Empty w' this) as He by (by eapply operator_assign_Throws_Empty).
  assert (forall o, src <> from_const_wrapper o) as Hsrc.
  { intros o ->. cbv [operator_assign implicit_copy modify] in H. discriminate. }
  revert H. rewrite operator_assign_eq by done. unfold operator_assign_template. run.
  assert (forall w0 ex0, destroy this w0 <> Throws ex0 w') as Hnothrow.
  { intros w0 ex0. unfold destroy. run.
    by destruct (storage w0 !! this) as [e|]; [destruct (destructor _ _ _)|]. }
  destruct (destroy this w) as [[] w1|ex1 w1| |] eqn:Hd.
  - destruct (init src this w1) as [[] w2|ex2 w2| |] eqn:Hi; cbn; try done.
    destruct (operator_assign_noexcept src); [done|].
    intros [= <- <-]. split; [done|]. split; [by eexists _, _|].
    split; [done|]. by apply operator_bool_Empty.
  - exfalso. revert Hd. unfold destroy. run.
    by destruct (storage w !! this) as [e|]; [destruct (destructor _ _ _)|].
  - done.
  - done.
Qed.

(** X18: assigning an rvalue of a small class type to a valid wrapper
    cannot fail: the move constructor of a small type does not throw, so the
    assignment returns, as its [noexcept( true )] promises, and the wrapper
    holds the new payload inside its storage. *)
Theorem small_rvalue_assignment_returns w this T v :
  valid w this ->
  category T = class_type ->
  is_small T = true ->
  operator_assign_noexcept (from_callable rvalue T v) = true
  /\ exists w', operator_assign (from_callable rvalue T v) this w = Returns tt w'
       /\ storage w' !! this = Some (local_erasure T v)
       /\ holds w' this T v.
Proof.
  intros Hv Hc Hs. split; [cbn; by rewrite Hs|].
  destruct (destroy_valid _ _ Hv) as (w1 & Hd & _).
  assert (move_ctor T = ctor_noexcept) as Hm.
  { revert Hs. unfold is_small, is_small_of, is_nothrow_move_constructible.
    destruct (move_ctor T); [done|]; intros Hs; exfalso;
      by rewrite andb_false_r in Hs. }
  unfold operator_assign, operator_assign_template. cbn [init]. run. rewrite Hd.
  unfold init_tag. rewrite Hc, Hs. unfold init_local, local_erasure_ctor. run.
  cbn. rewrite Hm. cbn. eexists. split; [done|]. unfold holds. cbn.
  by rewrite lookup_insert_eq.
Qed.

(** X19: a pointer or pointer to member that is not null is always stored
    inside the wrapper, whatever its size: construction returns, calls no
    allocator and leaves the heap as it was. *)
Theorem nonnull_pointer_stored_inline w this T cat p :
  category T <> class_type ->
  is_nonnull T p = true ->
  exists w', wrapper_base (from_callable cat T p) this w = Returns tt w'
    /\ holds w' this T p
    /\ (storage w' !! this = Some (local_erasure T p)
        \/ storage w' !! this = Some (ptm_erasure T p))
    /\ heap w' = heap w /\ events w' = events w.
Proof.
  intros Hc Hn. unfold wrapper_base. cbn. unfold noexcept_if, init_tag.
  destruct (category T) eqn:Hcat; [done| |].
  - unfold init_pointer. rewrite Hn. eexists. split; [done|]. unfold holds. cbn.
    rewrite lookup_insert_eq. split; [done|]. split; [by left|done].
  - unfold init_ptm. rewrite Hn. eexists. split; [done|]. unfold holds. cbn.
    rewrite lookup_insert_eq. split; [done|]. split; [by right|done].
Qed.

(** *** Calls *)



Lemma target_of_holds w this T v :
  holds w this T v ->
  exists p, target (typeid T) this w = Returns p w
    /\ dereference p w = Some v
    /\ forall v', target (typeid T) this (with_target this v' w)
                  = Returns p (with_target this v' w)
                  /\ dereference p (with_target this v' w) = Some v'.
Proof.
  unfold holds, with_target. intros H.
  destruct (storage w !! this) as [e|] eqn:He; [|done].
  destruct e as [|T' v0|T' v0|al T' [|c|l]]; try done; destruct H as [-> H]; subst.
  - exists (in_storage this).
    rewrite (target_eq _ _ _ _ He). cbn.
    rewrite bool_decide_eq_false_2 by (intros K; by apply K).
    split; [unfold local_target_access; run; by rewrite He|].
    split; [by rewrite He|]. intros v'.
    rewrite (target_eq _ _ (local_erasure T v')) by apply set_storage_lookup. cbn.
    rewrite bool_decide_eq_false_2 by (intros K; by apply K).
    split; [unfold local_target_access; run; cbn|]; by rewrite lookup_insert_eq.
  - exists (in_storage this).
    rewrite (target_eq _ _ _ _ He). cbn.
    rewrite bool_decide_eq_false_2 by (intros K; by apply K).
    split; [unfold ptm_target_access; run; by rewrite He|].
    split; [by rewrite He|]. intros v'.
    rewrite (target_eq _ _ (ptm_erasure T v')) by apply set_storage_lookup. cbn.
    rewrite bool_decide_eq_false_2 by (intros K; by apply K).
    split; [unfold ptm_target_access; run; cbn|]; by rewrite lookup_insert_eq.
  - exists (on_heap l).
    rewrite (target_eq _ _ _ _ He). cbn.
    rewrite bool_decide_eq_false_2 by (intros K; by apply K).
    split; [unfold allocator_target_access; run; by rewrite He|].
    split; [by rewrite H|]. intros v'.
    rewrite (target_eq _ _ (allocator_erasure al T (on_heap l))) by done. cbn.
    rewrite bool_decide_eq_false_2 by (intros K; by apply K).
    split; [unfold allocator_target_access; run; cbn; by rewrite He|].
    by rewrite lookup_insert_eq.
Qed.

(** X21: the pointer [target< T >()] gives before a call is the pointer it
    gives after the call, and it then points at the payload in the state the
    call left it in: what a call does to the payload is seen through
    [target]. *)
Theorem target_sees_the_call w this T v i s a :
  holds w this T v ->
  sigs !! i = Some s ->
  exists p w',
    target (typeid T) this w = Returns p w
    /\ dereference p w = Some v
    /\ call_wrapper_case i this a w
       = outcome_of (snd (call T (called_as w this s) v a)) w'
    /\ target (typeid T) this w' = Returns p w'
    /\ dereference p w' = Some (fst (call T (called_as w this s) v a)).
Proof.
  intros Hh Hs. destruct (target_of_holds _ _ _ _ Hh) as (p & Ht & Hd & Hafter).
  exists p, (with_target this (fst (call T (called_as w this s) v a)) w).
  split; [done|]. split; [done|].
  split; [by apply call_wrapper_case_holds|]. apply Hafter.
Qed.


End interface.


(** ** The further properties on the examples *)

Section interface_examples.

#[local] Existing Instance function_int_int_int.

Lemma small_payload_stored_inline_witness :
  counter_world = set_storage <[1%N := local_erasure counter (closure [5%Z])]> empty_world
  /\ heap counter_world = heap empty_world
  /\ events counter_world = events empty_world.
Proof.
  apply (small_payload_stored_inline empty_world counter_world 1%N counter rvalue
           (closure [5%Z])).
  - reflexivity.
  - reflexivity.
  - left. vm_compute. reflexivity.
Defined.

Lemma large_payload_allocated_witness :
  exists l, (l ∉ allocated empty_world)
    /\ storage (big_world (arena_of 1))
       = <[1%N := allocator_erasure (arena_of 1) big_closure (on_heap l)]>
           (storage empty_world)
    /\ heap (big_world (arena_of 1)) = <[l := Some eight]> (heap empty_world)
    /\ events (big_world (arena_of 1))
       = ev_construct (arena_of 1) l :: ev_allocate (arena_of 1) 1 l
         :: events empty_world.
Proof.
  apply (large_payload_allocated empty_world (big_world (arena_of 1)) 1%N (arena_of 1)
           big_closure rvalue eight).
  - reflexivity.
  - reflexivity.
  - right. vm_compute. reflexivity.
Defined.

Lemma allocation_failure_propagates_witness :
  wrapper_base_allocator_arg (arena_of 0) rvalue big_closure eight 1%N empty_world
  = Throws bad_alloc empty_world.
Proof.
  apply (allocation_failure_propagates empty_world 1%N (arena_of 0) big_closure rvalue
           eight).
  - reflexivity.
  - reflexivity.
  - vm_compute. discriminate.
  - reflexivity.
Defined.

Lemma holding_wrapper_is_not_empty_witness :
  operator_bool 1%N add_world = Returns true add_world
  /\ wrapper_target_type 1%N add_world = Returns (typeid add_pointer) add_world
  /\ typeid add_pointer <> typeid_void.
Proof.
  apply (holding_wrapper_is_not_empty add_world 1%N add_pointer (address 100)).
  vm_compute. split; reflexivity.
Defined.

Lemma nullptr_comparisons_witness :
  exists b, eq_nullptr 1%N null_world = Returns b null_world
    /\ nullptr_eq 1%N null_world = Returns b null_world
    /\ (b = true <-> Empty null_world 1%N).
Proof. apply (nullptr_comparisons null_world 1%N null_erasure). reflexivity. Defined.

Lemma copy_is_independent_witness :
  holds big_copy_world 2%N big_closure eight
  /\ holds big_copy_world 1%N big_closure eight
  /\ storage big_copy_world !! 1%N = storage (big_world std_allocator) !! 1%N
  /\ forall v', holds (with_target 2%N v' big_copy_world) 1%N big_closure eight.
Proof.
  apply (copy_is_independent (big_world std_allocator) big_copy_world 2%N 1%N
           big_closure eight).
  - discriminate.
  - vm_compute. split; reflexivity.
  - vm_compute. reflexivity.
Defined.

Lemma failed_copy_leaves_source_witness :
  holds counter_world 1%N counter (closure [5%Z])
  /\ storage counter_world = storage counter_world.
Proof.
  apply (failed_copy_leaves_source counter_world counter_world 2%N 1%N counter
           (closure [5%Z]) (user_exception 7)).
  - vm_compute. split; reflexivity.
  - vm_compute. reflexivity.
Defined.

Lemma construct_from_empty_witness :
  exists w', wrapper_base (from_wrapper rvalue 1%N) 2%N null_world = Returns tt w'
    /\ Empty w' 2%N /\ Empty w' 1%N
    /\ heap w' = heap null_world /\ events w' = events null_world.
Proof.
  apply (construct_from_empty null_world 2%N 1%N rvalue).
  - discriminate.
  - reflexivity.
Defined.

Lemma move_construct_inline_round_trip_witness :
  exists w', wrapper_base (from_wrapper rvalue 1%N) 2%N add_world = Returns tt w'
    /\ storage w' !! 2%N = Some (local_erasure add_pointer (address 100))
    /\ Empty w' 1%N
    /\ (forall c, c <> 2%N -> c <> 1%N -> storage w' !! c = storage add_world !! c)
    /\ heap w' = heap add_world /\ events w' = events add_world.
Proof.
  apply (move_construct_inline_round_trip add_world 2%N 1%N
           (local_erasure add_pointer (address 100))).
  - discriminate.
  - reflexivity.
  - reflexivity.
Defined.

Lemma move_assign_inline_round_trip_witness :
  exists w', operator_assign (from_wrapper rvalue 2%N) 1%N big_and_null_world
             = Returns tt w'
    /\ storage w' !! 1%N = Some null_erasure
    /\ Empty w' 2%N
    /\ (forall c, c <> 1%N -> c <> 2%N -> storage w' !! c = storage big_and_null_world !! c)
    /\ heap w' = <[1%positive := None]> (heap big_and_null_world)
    /\ events w' = ev_destroy std_allocator 1 :: events big_and_null_world.
Proof.
  apply (move_assign_inline_round_trip big_and_null_world 1%N 2%N
           (allocator_erasure std_allocator big_closure (on_heap 1)) null_erasure).
  - discriminate.
  - reflexivity.
  - exists eight. reflexivity.
  - reflexivity.
  - exact I.
Defined.

Lemma swap_exchanges_witness :
  exists w', swap 3%N 1%N 2%N pair_world = Returns tt w'
    /\ storage w' !! 1%N = Some (local_erasure counter (closure [5%Z]))
    /\ storage w' !! 2%N = Some (local_erasure add_pointer (address 100))
    /\ (forall c, c <> 1%N -> c <> 2%N -> storage w' !! c = storage pair_world !! c)
    /\ heap w' = heap pair_world /\ events w' = events pair_world.
Proof.
  apply (swap_exchanges pair_world 3%N 1%N 2%N
           (local_erasure add_pointer (address 100))
           (local_erasure counter (closure [5%Z])));
    first [discriminate | reflexivity].
Defined.

Lemma swap_twice_restores_witness :
  exists w', swap 3%N 1%N 2%N pair_world = Returns tt w'
    /\ swap 3%N 1%N 2%N w' = Returns tt pair_world.
Proof.
  apply (swap_twice_restores pair_world 3%N 1%N 2%N
           (local_erasure add_pointer (address 100))
           (local_erasure counter (closure [5%Z])));
    first [discriminate | reflexivity].
Defined.

Lemma assign_nullptr_resets_witness :
  exists w', operator_assign from_nullptr 1%N add_world = Returns tt w'
    /\ Empty w' 1%N
    /\ operator_bool 1%N w' = Returns false w'
    /\ forall o, o <> 1%N -> storage w' !! o = storage add_world !! o.
Proof.
  apply (assign_nullptr_resets add_world 1%N).
  exists (local_erasure add_pointer (address 100)). split; [reflexivity | exact I].
Defined.

Lemma assign_replaces_payload_witness :
  holds counter_world 1%N counter (closure [5%Z])
  /\ forall i s a, sigs !! i = Some s ->
       call_wrapper_case i 1%N a counter_world
       = outcome_of (snd (call counter (called_as counter_world 1%N s) (closure [5%Z]) a))
           (with_target 1%N
              (fst (call counter (called_as counter_world 1%N s) (closure [5%Z]) a))
              counter_world).
Proof.
  apply (assign_replaces_payload add_world counter_world 1%N counter rvalue
           (closure [5%Z])).
  - vm_compute. reflexivity.
  - left. reflexivity.
Defined.

Lemma assign_exception_is_inits_witness :
  operator_assign_noexcept (from_callable rvalue fragile_closure eight) = false
  /\ (exists w1 w2, destroy 1%N add_world = Returns tt w1
        /\ init (from_callable rvalue fragile_closure eight) 1%N w1
           = Throws (user_exception 9) w2
        /\ after_throw_world = set_storage <[1%N := null_erasure]> w2)
  /\ Empty after_throw_world 1%N
  /\ operator_bool 1%N after_throw_world = Returns false after_throw_world.
Proof.
  apply (assign_exception_is_inits add_world after_throw_world 1%N
           (from_callable rvalue fragile_closure eight) (user_exception 9)).
  vm_compute. reflexivity.
Defined.

Lemma small_rvalue_assignment_returns_witness :
  operator_assign_noexcept (from_callable rvalue counter (closure [5%Z])) = true
  /\ exists w', operator_assign (from_callable rvalue counter (closure [5%Z])) 1%N add_world
                = Returns tt w'
       /\ storage w' !! 1%N = Some (local_erasure counter (closure [5%Z]))
       /\ holds w' 1%N counter (closure [5%Z]).
Proof.
  apply (small_rvalue_assignment_returns add_world 1%N counter (closure [5%Z])).
  - exists (local_erasure add_pointer (address 100)). split; [reflexivity | exact I].
  - reflexivity.
  - reflexivity.
Defined.

Lemma nonnull_pointer_stored_inline_witness :
  exists w', wrapper_base (from_callable lvalue add_pointer (address 100)) 1%N empty_world
             = Returns tt w'
    /\ holds w' 1%N add_pointer (address 100)
    /\ (storage w' !! 1%N = Some (local_erasure add_pointer (address 100))
        \/ storage w' !! 1%N = Some (ptm_erasure add_pointer (address 100)))
    /\ heap w' = heap empty_world /\ events w' = events empty_world.
Proof.
  apply (nonnull_pointer_stored_inline empty_world 1%N add_pointer lvalue (address 100)).
  - discriminate.
  - reflexivity.
Defined.


Lemma target_sees_the_call_witness :
  exists p w',
    target (typeid counter) 1%N counter_world = Returns p counter_world
    /\ dereference p counter_world = Some (closure [5%Z])
    /\ call_wrapper_case 0 1%N [2; 3]%Z counter_world
       = outcome_of
           (snd (call counter (called_as counter_world 1%N int_int_int)
                   (closure [5%Z]) [2; 3]%Z)) w'
    /\ target (typeid counter) 1%N w' = Returns p w'
    /\ dereference p w'
       = Some (fst (call counter (called_as counter_world 1%N int_int_int)
                      (closure [5%Z]) [2; 3]%Z)).
Proof.
  apply (target_sees_the_call counter_world 1%N counter (closure [5%Z]) 0
           int_int_int [2; 3]%Z).
  - vm_compute. split; reflexivity.
  - reflexivity.
Defined.


(** The counter wrapped in wrapper 1 counts: the call returns 5 and the
    target then holds 6, through a const access path as well. *)
Example counter_counts :
  call_wrapper_case 0 1%N [2; 3]%Z counter_world
  = Returns 5%Z (set_storage <[1%N := local_erasure counter (closure [6%Z])]> counter_world)
  /\ invoke (value := example_value) (result := Z) const_lvalue int_int 1%N [2; 3]%Z
     = Some (call_wrapper_case 0 1%N [2; 3]%Z).
Proof. split; vm_compute; reflexivity. Qed.

(** A copy made from a const wrapper shares the block of the source: no
    allocator is called and both erasures point at block 1.  A copy made
    from a non-const lvalue has a block of its own. *)
Example const_copy_shares_the_block :
  wrapper_base (from_const_wrapper 1%N) 2%N (big_world std_allocator)
  = Returns tt
      (set_storage <[2%N := allocator_erasure std_allocator big_closure (on_heap 1)]>
         (big_world std_allocator))
  /\ wrapper_base (from_wrapper lvalue 1%N) 2%N (big_world std_allocator)
     = Returns tt big_copy_world.
Proof. split; vm_compute; reflexivity. Qed.

End interface_examples.

End cxx_function.
